(** * Phase functions of Mitsuba 3: Henyey-Greenstein kernel and two-way blend

    A shallow embedding of [src/phase/hg.cpp] (class [HGPhaseFunction]) and of
    the blend plugin (class [BlendPhaseFunction]), followed by the properties
    the specification states about them.

    Both classes are templates over the arithmetic type [Float].  The
    embedding keeps that shape: every definition is written once, over the
    interface [DrFloat] of the Dr.Jit operations the two files use, in the
    scalar variants (a mask is a [bool], one lane).  The theorems are stated
    at the instance of exact real arithmetic, where the closed forms of the
    specification live; rounding is not modelled. *)

From Stdlib Require Import ZArith List String Bool QArith Reals Qreals Lra Lia.
Import ListNotations.

Set Implicit Arguments.

(** ** The arithmetic interface (template parameter [Float]) *)

Class DrFloat (Float : Type) : Type := {
  fofZ : Z -> Float;                       (* integer literals: 1, 2, 1.f, 2.0f *)
  flit : Q -> Float;                       (* decimal literals: 0.8f *)
  fadd : Float -> Float -> Float;
  fsub : Float -> Float -> Float;
  fmul : Float -> Float -> Float;
  fdiv : Float -> Float -> Float;
  fneg : Float -> Float;
  fabs : Float -> Float;                   (* dr::abs *)
  fsqrt : Float -> Float;                  (* dr::sqrt *)
  fsin : Float -> Float;
  fcos : Float -> Float;
  fmin : Float -> Float -> Float;          (* dr::minimum *)
  fmax : Float -> Float -> Float;          (* dr::maximum *)
  flt : Float -> Float -> bool;            (* a <  b *)
  fle : Float -> Float -> bool;            (* a <= b *)
  fgt : Float -> Float -> bool;            (* a >  b *)
  fge : Float -> Float -> bool;            (* a >= b *)
  Pi : Float;                              (* dr::Pi *)
  InvFourPi : Float                        (* dr::InvFourPi *)
}.

Declare Scope float_scope.
Delimit Scope float_scope with fl.
Notation "a + b" := (fadd a b) : float_scope.
Notation "a - b" := (fsub a b) : float_scope.
Notation "a * b" := (fmul a b) : float_scope.
Notation "a / b" := (fdiv a b) : float_scope.
Notation "- a" := (fneg a) : float_scope.
Notation "a <? b" := (flt a b) : float_scope.
Notation "a <=? b" := (fle a b) : float_scope.
Notation "a >? b" := (fgt a b) : float_scope.
Notation "a >=? b" := (fge a b) : float_scope.
Notation "0" := (fofZ 0) : float_scope.
Notation "1" := (fofZ 1) : float_scope.
Notation "2" := (fofZ 2) : float_scope.

(** A mask in the scalar variants. *)
Definition Mask : Type := bool.

(** [uint32_t] values are integers in [0, 2^32). *)
Definition uint32_max : Z := 4294967295.          (* (uint32_t) -1 *)
Definition to_uint32 (n : Z) : Z := n mod 4294967296.

(** ** Exceptions: [Throw] aborts a constructor, no object is produced *)

Inductive except (A : Type) : Type :=
| Return (a : A)
| Throw (msg : string).
Arguments Return {A} a.
Arguments Throw {A} msg.

Definition bind {A B : Type} (m : except A) (k : A -> except B) : except B :=
  match m with
  | Return a => k a
  | Throw msg => Throw msg
  end.

Notation "x <- m ;; k" := (bind m (fun x => k))
  (at level 61, m at next level, right associativity).

Definition failed {A : Type} (m : except A) : Prop := exists msg, m = Throw msg.

(** ** Data model shared by the two plugins *)

Section Types.
Context {Float : Type}.

Record Vector3f : Type := mkVector3f { vx : Float; vy : Float; vz : Float }.
Record Point2f : Type := mkPoint2f { x : Float; y : Float }.

(** An orthonormal frame [(s, t, n)]. *)
Record Frame3f : Type := mkFrame3f { s : Vector3f; t : Vector3f; n : Vector3f }.

(** The local interaction: position, incoming direction [wi] (pointing
    away from the scattering point) and the local shading frame. *)
Record MediumInteraction3f : Type := mkMediumInteraction3f {
  p : Vector3f;
  wi : Vector3f;
  sh_frame : Frame3f
}.

Inductive TransportMode : Type := Radiance | Importance.

(** The per-call context; [component = (uint32_t) -1] means unrestricted. *)
Record PhaseFunctionContext : Type := mkPhaseFunctionContext {
  mode : TransportMode;
  type_mask : Z;
  component : Z
}.

Definition set_component (ctx : PhaseFunctionContext) (k : Z)
  : PhaseFunctionContext :=
  {| mode := mode ctx; type_mask := type_mask ctx; component := k |}.

(** The interface [PhaseFunction] (the class [Base] of both plugins): the
    two members every plugin fills in, and the two virtual methods. *)
Record PhaseFunction : Type := mkPhaseFunction {
  m_flags : Z;
  m_components : list Z;
  sample : PhaseFunctionContext -> MediumInteraction3f -> Float -> Point2f ->
           Mask -> Vector3f * Float;
  eval : PhaseFunctionContext -> MediumInteraction3f -> Vector3f -> Mask ->
         Float
}.

(** [size_t component_count() const]: the size of [m_components]. *)
Definition component_count (ph : PhaseFunction) : Z :=
  Z.of_nat (List.length (m_components ph)).

(** [uint32_t flags(size_t i) const]. *)
Definition flags_at (ph : PhaseFunction) (i : nat) : Z :=
  nth i (m_components ph) 0%Z.

(** The scalar field behind the blending weight. *)
Record Volume : Type := mkVolume {
  eval_1 : MediumInteraction3f -> Mask -> Float
}.

(** Scene objects handed to a constructor, and the property list, in the
    order of declaration. *)
Inductive Object : Type :=
| ObjPhase (ph : PhaseFunction)
| ObjVolume (v : Volume)
| ObjOther.

Inductive PropValue : Type :=
| PFloat (v : Float)
| PObject (o : Object).

Definition Properties : Type := list (string * PropValue).

Fixpoint props_find (name : string) (props : Properties) : option PropValue :=
  match props with
  | [] => None
  | (k, v) :: rest => if String.eqb k name then Some v else props_find name rest
  end.

(** [props.objects(false)]: the object-valued entries, in order. *)
Fixpoint props_objects (props : Properties) : list (string * Object) :=
  match props with
  | [] => []
  | (k, PObject o) :: rest => (k, o) :: props_objects rest
  | (_, PFloat _) :: rest => props_objects rest
  end.

(** [dynamic_cast<Base *>(obj.get())]. *)
Definition dynamic_cast_Base (o : Object) : option PhaseFunction :=
  match o with
  | ObjPhase ph => Some ph
  | _ => None
  end.
End Types.

Arguments Vector3f : clear implicits.
Arguments Point2f : clear implicits.
Arguments Frame3f : clear implicits.
Arguments MediumInteraction3f : clear implicits.
Arguments PhaseFunction : clear implicits.
Arguments Volume : clear implicits.
Arguments Object : clear implicits.
Arguments PropValue : clear implicits.
Arguments Properties : clear implicits.

(** ** What the headers outside these two files fix, per build variant

    [Epsilon] is [dr::Epsilon<ScalarFloat>], [Anisotropic] the bit of
    [PhaseFunctionFlags::Anisotropic], [MI_MASKED_FUNCTION] the effect of the
    macro of that name on the mask it is given, and the two [uninitialized]
    members the contents of a default-constructed local before its first
    assignment.  Everything below holds for any choice of them. *)

Class Variant (Float : Type) : Type := {
  Epsilon : Float;
  Anisotropic : Z;
  MI_MASKED_FUNCTION : Mask -> Mask;
  uninitialized_Vector3f : Vector3f Float;
  uninitialized_Float : Float
}.

Section Plugins.
Context {Float : Type} {DF : DrFloat Float} {VA : Variant Float}.
Local Open Scope float_scope.

(** *** Dr.Jit helpers *)

(** [dr::clamp(value, min, max)]. *)
Definition dr_clamp (value lo hi : Float) : Float := fmax (fmin value hi) lo.

(** [dr::safe_sqrt(a)]: the square root of [a] clamped at zero. *)
Definition dr_safe_sqrt (a : Float) : Float := fsqrt (fmax a 0).

(** [dr::sincos(a)]. *)
Definition dr_sincos (a : Float) : Float * Float := (fsin a, fcos a).

(** [dr::dot(a, b)]. *)
Definition dr_dot (a b : Vector3f Float) : Float :=
  vx a * vx b + vy a * vy b + vz a * vz b.

(** [dr::masked(dst, m) = src]. *)
Definition dr_masked {A : Type} (dst : A) (m : Mask) (src : A) : A :=
  if m then src else dst.

(** [dr::any_or<true>(m)]: the mask itself in a scalar variant. *)
Definition dr_any_or_true (m : Mask) : bool := m.

(** Modelled from the spec: the frame transform [to_world] of the local
    interaction ([Frame3f::to_world] through [MediumInteraction3f], declared
    outside these files), the local direction expressed in the frame of the
    scattering point. *)
Definition to_world (mi : MediumInteraction3f Float) (v : Vector3f Float)
  : Vector3f Float :=
  let f := sh_frame mi in
  {| vx := vx (s f) * vx v + vx (t f) * vy v + vx (n f) * vz v;
     vy := vy (s f) * vx v + vy (t f) * vy v + vy (n f) * vz v;
     vz := vz (s f) * vx v + vz (t f) * vy v + vz (n f) * vz v |}.

(** *** Property lookups and logging *)

(** Modelled from the spec: [props.get<ScalarFloat>(name, def)], the value
    of a float property or the default when it is absent. *)
Definition props_get_float (props : Properties Float) (name : string)
           (def : Float) : except Float :=
  match props_find name props with
  | None => Return def
  | Some (PFloat v) => Return v
  | Some (PObject _) => Throw "The property has the wrong type"
  end.

(** Modelled from the spec: [props.volume<Volume>(name)], the weight
    source; a float stands for the constant field, and an absent property
    is a construction failure. *)
Definition props_volume (props : Properties Float) (name : string)
  : except (Volume Float) :=
  match props_find name props with
  | None => Throw "Property has not been specified!"
  | Some (PFloat v) => Return {| eval_1 := fun _ _ => v |}
  | Some (PObject (ObjVolume v)) => Return v
  | Some (PObject _) => Throw "The property has the wrong type"
  end.

(** Modelled from the spec: [Log(Error, msg)], a fatal construction
    failure. *)
Definition Log_Error {A : Type} (msg : string) : except A := Throw msg.

(** *** [HGPhaseFunction] (hg.cpp) *)

Record HGPhaseFunction : Type := mkHGPhaseFunction {
  m_g : Float;
  hg_m_flags : Z;
  hg_m_components : list Z
}.

(** Lines 56-58 of the constructor: the flags and the single component. *)
Definition HGPhaseFunction_init (m_g : Float) : HGPhaseFunction :=
  let m_flags := Anisotropic in
  {| m_g := m_g; hg_m_flags := m_flags; hg_m_components := [m_flags] |}.

(** The constructor, lines 51-59. *)
Definition HGPhaseFunction_new (props : Properties Float)
  : except HGPhaseFunction :=
  m_g <- props_get_float props "g" (flit (8 # 10)) ;;
  _ <- (if (m_g >=? 1) || (m_g <=? fofZ (-1))
        then Log_Error "The asymmetry parameter must lie in the interval (-1, 1)!"
        else Return tt) ;;
  Return (HGPhaseFunction_init m_g).

(** [eval_hg], lines 65-68. *)
Definition HGPhaseFunction_eval_hg (self : HGPhaseFunction)
           (cos_theta : Float) : Float :=
  let m_g := m_g self in
  let temp := 1 + m_g * m_g + 2 * m_g * cos_theta in
  InvFourPi * (1 - m_g * m_g) / (temp * fsqrt temp).

(** The deflection cosine drawn by [sample], lines 77-83. *)
Definition HGPhaseFunction_cos_theta (self : HGPhaseFunction)
           (sample2 : Point2f Float) : Float :=
  let m_g := m_g self in
  if fabs m_g <? Epsilon then
    1 - 2 * x sample2
  else
    let sqr_term := (1 - m_g * m_g) / (1 - m_g + 2 * m_g * x sample2) in
    (1 + m_g * m_g - sqr_term * sqr_term) / (2 * m_g).

(** [sample], lines 70-91. *)
Definition HGPhaseFunction_sample (self : HGPhaseFunction)
           (ctx : PhaseFunctionContext) (mi : MediumInteraction3f Float)
           (sample1 : Float) (sample2 : Point2f Float) (active : Mask)
  : Vector3f Float * Float :=
  let active := MI_MASKED_FUNCTION active in
  let cos_theta := HGPhaseFunction_cos_theta self sample2 in
  let sin_theta := dr_safe_sqrt (1 - cos_theta * cos_theta) in
  let '(sin_phi, cos_phi) := dr_sincos (2 * Pi * y sample2) in
  let wo := {| vx := sin_theta * cos_phi;
               vy := sin_theta * sin_phi;
               vz := - cos_theta |} in
  let wo := to_world mi wo in
  let pdf := HGPhaseFunction_eval_hg self (- cos_theta) in
  (wo, pdf).

(** [eval], lines 93-97. *)
Definition HGPhaseFunction_eval (self : HGPhaseFunction)
           (ctx : PhaseFunctionContext) (mi : MediumInteraction3f Float)
           (wo : Vector3f Float) (active : Mask) : Float :=
  let active := MI_MASKED_FUNCTION active in
  HGPhaseFunction_eval_hg self (dr_dot wo (wi mi)).

(** The kernel seen through the interface (virtual dispatch). *)
Definition HGPhaseFunction_Base (self : HGPhaseFunction)
  : PhaseFunction Float :=
  {| m_flags := hg_m_flags self;
     m_components := hg_m_components self;
     sample := HGPhaseFunction_sample self;
     eval := HGPhaseFunction_eval self |}.

(** *** [BlendPhaseFunction] (the blend plugin) *)

Record BlendPhaseFunction : Type := mkBlendPhaseFunction {
  m_weight : Volume Float;
  m_nested_phase : PhaseFunction Float * PhaseFunction Float;
  blend_m_flags : Z;
  blend_m_components : list Z
}.

(** [m_nested_phase[phase_index] = phase] on the two-slot array. *)
Definition nested_store (a : option (PhaseFunction Float) *
                             option (PhaseFunction Float))
           (phase_index : Z) (phase : PhaseFunction Float) :=
  if (phase_index =? 0)%Z then (Some phase, snd a) else (fst a, Some phase).

(** The loop over [props.objects(false)], lines 65-74: the state is
    [phase_index] and the array filled so far. *)
Fixpoint collect_nested (objs : list (string * Object Float))
         (phase_index : Z)
         (nested : option (PhaseFunction Float) * option (PhaseFunction Float))
  : except (Z * (option (PhaseFunction Float) * option (PhaseFunction Float))) :=
  match objs with
  | [] => Return (phase_index, nested)
  | (name, obj) :: rest =>
      match dynamic_cast_Base obj with
      | Some phase =>
          if (phase_index =? 2)%Z then
            Throw "BlendPhase: Cannot specify more than two child phase functions"
          else
            collect_nested rest (phase_index + 1)%Z
                           (nested_store nested phase_index phase)
      | None => collect_nested rest phase_index nested
      end
  end.

(** The objects of a list that are phase functions, in order, and the
    child phase functions a property list supplies. *)
Definition children_of (objs : list (string * Object Float))
  : list (PhaseFunction Float) :=
  flat_map (fun entry => match dynamic_cast_Base (snd entry) with
                         | Some phase => [phase]
                         | None => []
                         end) objs.

Definition phase_children (props : Properties Float)
  : list (PhaseFunction Float) :=
  children_of (props_objects props).

(** Lines 80-86: the component list is filled child by child, the flags
    are the union of the children's. *)
Definition BlendPhaseFunction_init (m_weight : Volume Float)
           (p0 p1 : PhaseFunction Float) : BlendPhaseFunction :=
  {| m_weight := m_weight;
     m_nested_phase := (p0, p1);
     blend_m_flags := Z.lor (m_flags p0) (m_flags p1);
     blend_m_components :=
       flat_map (fun ph => map (fun j => flags_at ph j)
                               (seq 0 (Z.to_nat (component_count ph))))
                [p0; p1] |}.

(** The constructor, lines 62-87. *)
Definition BlendPhaseFunction_new (props : Properties Float)
  : except BlendPhaseFunction :=
  st <- collect_nested (props_objects props) 0%Z (None, None) ;;
  let '(phase_index, nested) := st in
  m_weight <- props_volume props "weight" ;;
  if negb (phase_index =? 2)%Z then
    Throw "BlendPhase: Two child phase functions must be specified!"
  else
    match nested with
    | (Some p0, Some p1) => Return (BlendPhaseFunction_init m_weight p0 p1)
    | _ => Throw "BlendPhase: null child"     (* not reached, see below *)
    end.

(** [eval_weight], lines 140-143. *)
Definition BlendPhaseFunction_eval_weight (self : BlendPhaseFunction)
           (mi : MediumInteraction3f Float) (active : Mask) : Float :=
  dr_clamp (eval_1 (m_weight self) mi active) 0 1.

(** [sample], lines 95-138. *)
Definition BlendPhaseFunction_sample (self : BlendPhaseFunction)
           (ctx : PhaseFunctionContext) (mi : MediumInteraction3f Float)
           (sample1 : Float) (sample2 : Point2f Float) (active : Mask)
  : Vector3f Float * Float :=
  let active := MI_MASKED_FUNCTION active in
  let p0 := fst (m_nested_phase self) in
  let p1 := snd (m_nested_phase self) in
  let weight := BlendPhaseFunction_eval_weight self mi active in
  if negb (component ctx =? uint32_max)%Z then
    let sample_first := (component ctx <? component_count p0)%Z in
    let ctx2 := ctx in
    let '(ctx2, weight) :=
      if negb sample_first then
        (set_component ctx2
           (to_uint32 (component ctx2 - to_uint32 (component_count p0))),
         weight)
      else (ctx2, 1 - weight) in
    let '(wo, pdf) :=
      sample (if sample_first then p0 else p1) ctx2 mi sample1 sample2 active in
    let pdf := pdf * weight in
    (wo, pdf)
  else
    let wo := uninitialized_Vector3f in
    let pdf := uninitialized_Float in
    let m0 := active && (sample1 >? weight) in
    let m1 := active && (sample1 <=? weight) in
    let '(wo, pdf) :=
      if dr_any_or_true m0 then
        let '(wo0, pdf0) :=
          sample p0 ctx mi ((sample1 - weight) / (1 - weight)) sample2 m0 in
        (dr_masked wo m0 wo0, dr_masked pdf m0 pdf0)
      else (wo, pdf) in
    let '(wo, pdf) :=
      if dr_any_or_true m1 then
        let '(wo1, pdf1) :=
          sample p1 ctx mi (sample1 / weight) sample2 m1 in
        (dr_masked wo m1 wo1, dr_masked pdf m1 pdf1)
      else (wo, pdf) in
    (wo, pdf).

(** [eval], lines 145-166. *)
Definition BlendPhaseFunction_eval (self : BlendPhaseFunction)
           (ctx : PhaseFunctionContext) (mi : MediumInteraction3f Float)
           (wo : Vector3f Float) (active : Mask) : Float :=
  let active := MI_MASKED_FUNCTION active in
  let p0 := fst (m_nested_phase self) in
  let p1 := snd (m_nested_phase self) in
  let weight := BlendPhaseFunction_eval_weight self mi active in
  if negb (component ctx =? uint32_max)%Z then
    let sample_first := (component ctx <? component_count p0)%Z in
    let ctx2 := ctx in
    let '(ctx2, weight) :=
      if negb sample_first then
        (set_component ctx2
           (to_uint32 (component ctx2 - to_uint32 (component_count p0))),
         weight)
      else (ctx2, 1 - weight) in
    weight * eval (if sample_first then p0 else p1) ctx2 mi wo active
  else
    eval p0 ctx mi wo active * (1 - weight) + eval p1 ctx mi wo active * weight.

(** The blend seen through the interface (virtual dispatch). *)
Definition BlendPhaseFunction_Base (self : BlendPhaseFunction)
  : PhaseFunction Float :=
  {| m_flags := blend_m_flags self;
     m_components := blend_m_components self;
     sample := BlendPhaseFunction_sample self;
     eval := BlendPhaseFunction_eval self |}.

(** *** A caller that adds up the restricted evaluations *)

(** The sum of [eval] over the component indices [0 .. component_count),
    accumulated from zero in increasing order of the index. *)
Definition eval_component_sum (ph : PhaseFunction Float)
           (ctx : PhaseFunctionContext) (mi : MediumInteraction3f Float)
           (wo : Vector3f Float) (active : Mask) : Float :=
  fold_left (fun acc k => acc + eval ph (set_component ctx (Z.of_nat k)) mi wo active)
            (seq 0 (Z.to_nat (component_count ph))) 0.

(** *** The kernels this code base can build *)

(** A kernel is a Henyey-Greenstein leaf or a blend of two kernels. *)
Inductive Kernel : Type :=
| KHG (g : Float)
| KBlend (m_weight : Volume Float) (k0 k1 : Kernel).

Fixpoint kernel_phase (k : Kernel) : PhaseFunction Float :=
  match k with
  | KHG g => HGPhaseFunction_Base (HGPhaseFunction_init g)
  | KBlend w k0 k1 =>
      BlendPhaseFunction_Base
        (BlendPhaseFunction_init w (kernel_phase k0) (kernel_phase k1))
  end.
End Plugins.

(** ** Exact real arithmetic as an instance of the interface *)

#[global] Instance R_DrFloat : DrFloat R := {|
  fofZ := IZR;
  flit := Q2R;
  fadd := Rplus;
  fsub := Rminus;
  fmul := Rmult;
  fdiv := Rdiv;
  fneg := Ropp;
  fabs := Rabs;
  fsqrt := sqrt;
  fsin := sin;
  fcos := cos;
  fmin := Rmin;
  fmax := Rmax;
  flt := fun a b => if Rlt_dec a b then true else false;
  fle := fun a b => if Rle_dec a b then true else false;
  fgt := fun a b => if Rgt_dec a b then true else false;
  fge := fun a b => if Rge_dec a b then true else false;
  Pi := PI;
  InvFourPi := (1 / (4 * PI))%R
|}.

(** A scalar variant in which the mask macro leaves its argument alone; used
    to run the definitions on concrete inputs. *)
Definition scalar_variant : Variant R := {|
  Epsilon := (1 / 16777216)%R;
  Anisotropic := 2%Z;
  MI_MASKED_FUNCTION := fun m => m;
  uninitialized_Vector3f := {| vx := 0%R; vy := 0%R; vz := 0%R |};
  uninitialized_Float := 0%R
|}.

(** The constant weight field. *)
Definition const_volume (v : R) : Volume R := {| eval_1 := fun _ _ => v |}.

(** The interaction whose frame is the canonical basis, coming in along z. *)
Definition mi_z : MediumInteraction3f R :=
  {| p := mkVector3f 0%R 0%R 0%R;
     wi := mkVector3f 0%R 0%R 1%R;
     sh_frame := {| s := mkVector3f 1%R 0%R 0%R;
                    t := mkVector3f 0%R 1%R 0%R;
                    n := mkVector3f 0%R 0%R 1%R |} |}.

Definition ctx_unrestricted : PhaseFunctionContext :=
  {| mode := Radiance; type_mask := 0%Z; component := uint32_max |}.

(** The frame of an interaction is the frame of its incoming direction: the
    normal is [wi] and the tangents are orthogonal to it. *)
Definition frame_of_wi (mi : MediumInteraction3f R) : Prop :=
  dr_dot (s (sh_frame mi)) (wi mi) = 0%R /\
  dr_dot (t (sh_frame mi)) (wi mi) = 0%R /\
  dr_dot (n (sh_frame mi)) (wi mi) = 1%R.

(** Two Henyey-Greenstein leaves and their blend with weight 0.3. *)
Definition hg_iso : HGPhaseFunction (Float := R) :=
  HGPhaseFunction_init (VA := scalar_variant) 0%R.
Definition hg_fwd : HGPhaseFunction (Float := R) :=
  HGPhaseFunction_init (VA := scalar_variant) (1 / 2)%R.

Definition blend_03 : BlendPhaseFunction (Float := R) :=
  BlendPhaseFunction_init (const_volume (3 / 10)%R)
    (HGPhaseFunction_Base (VA := scalar_variant) hg_iso)
    (HGPhaseFunction_Base (VA := scalar_variant) hg_fwd).

(** The same children under the degenerate weight 0. *)
Definition blend_0 : BlendPhaseFunction (Float := R) :=
  BlendPhaseFunction_init (const_volume 0%R)
    (HGPhaseFunction_Base (VA := scalar_variant) hg_iso)
    (HGPhaseFunction_Base (VA := scalar_variant) hg_fwd).

Definition sample2_mid : Point2f R := {| x := (1 / 2)%R; y := (1 / 4)%R |}.

(** The direction that continues straight on from [mi_z]. *)
Definition wo_forward : Vector3f R := mkVector3f 0%R 0%R (-1)%R.

Definition ctx_component (k : Z) : PhaseFunctionContext :=
  {| mode := Radiance; type_mask := 0%Z; component := k |}.

(** A property list with a weight and a single child. *)
Definition props_one_child : Properties R :=
  [("weight"%string, PFloat (1 / 2)%R);
   ("phase_0"%string,
    PObject (ObjPhase (HGPhaseFunction_Base (VA := scalar_variant) hg_iso)))].

(** The blend of weight 0.3 as a kernel. *)
Definition kernel_03 : Kernel (Float := R) :=
  KBlend (const_volume (3 / 10)%R) (KHG 0%R) (KHG (1 / 2)%R).

(** The interaction seen from the other end: the incoming direction
    replaced by [d]. *)
Definition with_wi (mi : MediumInteraction3f R) (d : Vector3f R)
  : MediumInteraction3f R :=
  {| p := p mi; wi := d; sh_frame := sh_frame mi |}.

(** An orthonormal frame. *)
Definition orthonormal (f : Frame3f R) : Prop :=
  dr_dot (s f) (s f) = 1%R /\ dr_dot (t f) (t f) = 1%R /\
  dr_dot (n f) (n f) = 1%R /\ dr_dot (s f) (t f) = 0%R /\
  dr_dot (s f) (n f) = 0%R /\ dr_dot (t f) (n f) = 0%R.

(** The cumulative distribution of the deflection cosine [mu] under the
    Henyey-Greenstein law of parameter [g], [g] not zero. *)
Definition hg_cdf (g mu : R) : R :=
  ((1 - g * g) / (2 * g) *
   (1 / sqrt (1 + g * g - 2 * g * mu) - 1 / (1 + g)))%R.

(** A property list with a weight, a volume that is no phase function, and
    two children. *)
Definition props_two_children : Properties R :=
  [("phase_a"%string,
    PObject (ObjPhase (HGPhaseFunction_Base (VA := scalar_variant) hg_iso)));
   ("weight"%string, PObject (ObjVolume (const_volume (3 / 10)%R)));
   ("phase_b"%string,
    PObject (ObjPhase (HGPhaseFunction_Base (VA := scalar_variant) hg_fwd)))].

(** A property list with three children and no weight. *)
Definition props_three_children : Properties R :=
  [("phase_a"%string,
    PObject (ObjPhase (HGPhaseFunction_Base (VA := scalar_variant) hg_iso)));
   ("phase_b"%string,
    PObject (ObjPhase (HGPhaseFunction_Base (VA := scalar_variant) hg_fwd)));
   ("phase_c"%string,
    PObject (ObjPhase (HGPhaseFunction_Base (VA := scalar_variant) hg_iso)))].

(** The asymmetry parameters at the leaves of a kernel, left to right. *)
Fixpoint kernel_leaves (k : Kernel (Float := R)) : list R :=
  match k with
  | KHG g => [g]
  | KBlend _ k0 k1 => kernel_leaves k0 ++ kernel_leaves k1
  end.

(** The factor a kernel puts on its component [idx]: the product, along the
    path from the root to that leaf, of [1 - w] at every blend left through
    child 0 and of [w] at every blend left through child 1, each weight
    clamped and evaluated under the mask as the macro hands it down. *)
Fixpoint kernel_component_weight {VA : Variant R} (k : Kernel (Float := R))
         (idx : nat) (mi : MediumInteraction3f R) (active : Mask) : R :=
  match k with
  | KHG _ => 1%R
  | KBlend w k0 k1 =>
      let a := MI_MASKED_FUNCTION active in
      let wt := dr_clamp (eval_1 w mi a) 0%R 1%R in
      if (idx <? List.length (kernel_leaves k0))%nat
      then ((1 - wt) * kernel_component_weight k0 idx mi a)%R
      else (wt * kernel_component_weight k1
                   (idx - List.length (kernel_leaves k0)) mi a)%R
  end.

(** A blend two levels deep: the blend of weight 0.3 against a forward
    leaf, under weight 0.5. *)
Definition kernel_nested : Kernel (Float := R) :=
  KBlend (const_volume (1 / 2)%R) kernel_03 (KHG (1 / 2)%R).

(** * Properties *)

Local Open Scope R_scope.

(** ** Comparisons and clamping over the reals *)

Lemma flt_R (a b : R) : flt a b = true <-> a < b.
Proof. cbn. destruct (Rlt_dec a b); split; intros; try easy. Qed.

Lemma fle_R (a b : R) : fle a b = true <-> a <= b.
Proof. cbn. destruct (Rle_dec a b); split; intros; try easy. Qed.

Lemma fgt_R (a b : R) : fgt a b = true <-> a > b.
Proof. cbn. destruct (Rgt_dec a b); split; intros; try easy. Qed.

Lemma fge_R (a b : R) : fge a b = true <-> a >= b.
Proof. cbn. destruct (Rge_dec a b); split; intros; try easy. Qed.

Lemma fgt_R_false (a b : R) : fgt a b = false <-> a <= b.
Proof. cbn. destruct (Rgt_dec a b); split; intros; try easy; lra. Qed.

Lemma fle_R_false (a b : R) : fle a b = false <-> a > b.
Proof. cbn. destruct (Rle_dec a b); split; intros; try easy; lra. Qed.

Lemma dr_clamp_R (v lo hi : R) : dr_clamp v lo hi = Rmax (Rmin v hi) lo.
Proof. reflexivity. Qed.

Lemma dr_clamp_unit_range (v : R) : 0 <= dr_clamp v 0 1 <= 1.
Proof.
  rewrite dr_clamp_R. unfold Rmax, Rmin.
  destruct (Rle_dec v 1); destruct (Rle_dec _ 0); lra.
Qed.

Lemma dr_clamp_unit_id (v : R) : 0 <= v <= 1 -> dr_clamp v 0 1 = v.
Proof.
  intros Hv. rewrite dr_clamp_R. unfold Rmax, Rmin.
  destruct (Rle_dec v 1); destruct (Rle_dec _ 0); lra.
Qed.

Lemma dr_clamp_unit_below (v : R) : v <= 0 -> dr_clamp v 0 1 = 0.
Proof.
  intros Hv. rewrite dr_clamp_R. unfold Rmax, Rmin.
  destruct (Rle_dec v 1); destruct (Rle_dec _ 0); lra.
Qed.

Lemma dr_clamp_unit_above (v : R) : 1 <= v -> dr_clamp v 0 1 = 1.
Proof.
  intros Hv. rewrite dr_clamp_R. unfold Rmax, Rmin.
  destruct (Rle_dec v 1); destruct (Rle_dec _ 0); lra.
Qed.

(** ** The blend, unrestricted mode *)

Section BlendUnrestricted.
Context {VA : Variant R}.
Variable self : BlendPhaseFunction (Float := R).
Variable ctx : PhaseFunctionContext.
Variable mi : MediumInteraction3f R.
Variable active : Mask.
Hypothesis Hctx : component ctx = uint32_max.
Hypothesis Hactive : MI_MASKED_FUNCTION active = true.

Local Abbreviation p0 := (fst (m_nested_phase self)).
Local Abbreviation p1 := (snd (m_nested_phase self)).
Local Abbreviation w := (BlendPhaseFunction_eval_weight self mi true).

(** The branch of child 0: taken exactly when the first sample exceeds
    the weight. *)
Lemma blend_sample_first_child (u1 : R) (sample2 : Point2f R) :
  u1 > w ->
  BlendPhaseFunction_sample self ctx mi u1 sample2 active =
  sample p0 ctx mi ((u1 - w) / (1 - w)) sample2 true.
Proof.
  intros Hu. unfold BlendPhaseFunction_sample.
  rewrite Hctx, Hactive, Z.eqb_refl. cbn [negb andb].
  assert (H0 : fgt u1 w = true) by (apply fgt_R; exact Hu).
  assert (H1 : fle u1 w = false) by (apply fle_R_false; exact Hu).
  rewrite H0, H1. unfold dr_any_or_true, dr_masked.
  destruct (sample p0 ctx mi _ sample2 true) as [wo0 pdf0].
  reflexivity.
Qed.

(** The branch of child 1: taken exactly when the first sample does not
    exceed the weight. *)
Lemma blend_sample_second_child (u1 : R) (sample2 : Point2f R) :
  u1 <= w ->
  BlendPhaseFunction_sample self ctx mi u1 sample2 active =
  sample p1 ctx mi (u1 / w) sample2 true.
Proof.
  intros Hu. unfold BlendPhaseFunction_sample.
  rewrite Hctx, Hactive, Z.eqb_refl. cbn [negb andb].
  assert (H0 : fgt u1 w = false) by (apply fgt_R_false; exact Hu).
  assert (H1 : fle u1 w = true) by (apply fle_R; exact Hu).
  rewrite H0, H1. unfold dr_any_or_true, dr_masked.
  destruct (sample p1 ctx mi _ sample2 true) as [wo1 pdf1].
  reflexivity.
Qed.

End BlendUnrestricted.

(** Unrestricted evaluation is the weighted sum of the children, whatever
    mask the macro leaves. *)
Lemma blend_eval_weighted_sum
      (VA : Variant R) (self : BlendPhaseFunction (Float := R))
      (ctx : PhaseFunctionContext) (mi : MediumInteraction3f R)
      (wo : Vector3f R) (active : Mask) :
  component ctx = uint32_max ->
  let a := MI_MASKED_FUNCTION active in
  let w := BlendPhaseFunction_eval_weight self mi a in
  BlendPhaseFunction_eval self ctx mi wo active =
  (1 - w) * eval (fst (m_nested_phase self)) ctx mi wo a +
  w * eval (snd (m_nested_phase self)) ctx mi wo a.
Proof.
  intros Hctx a w. unfold BlendPhaseFunction_eval.
  rewrite Hctx, Z.eqb_refl. cbn [negb].
  fold a. fold w. cbn. ring.
Qed.

(** C1. In unrestricted mode, a first sample above the clamped weight [w]
    goes to child 0, renormalised to [(u1 - w) / (1 - w)], and a first sample
    not above it goes to child 1, renormalised to [u1 / w]; the pair
    (direction, density) of the chosen child is returned as it is, the
    density is not scaled by [w] or [1 - w]. *)
Theorem blend_sample_unrestricted_routing
        (VA : Variant R) (self : BlendPhaseFunction (Float := R))
        (ctx : PhaseFunctionContext) (mi : MediumInteraction3f R)
        (u1 : R) (sample2 : Point2f R) (active : Mask) :
  component ctx = uint32_max ->
  MI_MASKED_FUNCTION active = true ->
  let w := dr_clamp (eval_1 (m_weight self) mi true) 0 1 in
  (u1 > w ->
   BlendPhaseFunction_sample self ctx mi u1 sample2 active =
   sample (fst (m_nested_phase self)) ctx mi ((u1 - w) / (1 - w)) sample2 true)
  /\
  (u1 <= w ->
   BlendPhaseFunction_sample self ctx mi u1 sample2 active =
   sample (snd (m_nested_phase self)) ctx mi (u1 / w) sample2 true).
Proof.
  intros Hctx Hactive w. split; intros Hu.
  - now apply blend_sample_first_child.
  - now apply blend_sample_second_child.
Qed.

Lemma blend_sample_unrestricted_routing_witness :
  BlendPhaseFunction_sample (VA := scalar_variant) blend_03 ctx_unrestricted
                            mi_z (1 / 2) sample2_mid true =
  HGPhaseFunction_sample (VA := scalar_variant) hg_iso ctx_unrestricted mi_z
    ((1 / 2 - dr_clamp (3 / 10) 0 1) / (1 - dr_clamp (3 / 10) 0 1))
    sample2_mid true.
Proof.
  apply (@blend_sample_unrestricted_routing scalar_variant blend_03
           ctx_unrestricted mi_z (1 / 2) sample2_mid true
           eq_refl eq_refl).
  cbn [blend_03 BlendPhaseFunction_init m_weight const_volume eval_1].
  rewrite dr_clamp_unit_id; lra.
Defined.

(** C2. In unrestricted mode [eval] is
    [(1 - w) * children[0].eval(wo) + w * children[1].eval(wo)], where [w]
    is the value of the weight field at the interaction clamped into
    [0, 1]. *)
Theorem blend_eval_unrestricted
        (VA : Variant R) (self : BlendPhaseFunction (Float := R))
        (ctx : PhaseFunctionContext) (mi : MediumInteraction3f R)
        (wo : Vector3f R) (active : Mask) :
  component ctx = uint32_max ->
  let a := MI_MASKED_FUNCTION active in
  let v := eval_1 (m_weight self) mi a in
  let w := BlendPhaseFunction_eval_weight self mi a in
  w = Rmax (Rmin v 1) 0 /\
  0 <= w <= 1 /\
  BlendPhaseFunction_eval self ctx mi wo active =
  (1 - w) * eval (fst (m_nested_phase self)) ctx mi wo a +
  w * eval (snd (m_nested_phase self)) ctx mi wo a.
Proof.
  intros Hctx a v w. repeat split.
  - apply dr_clamp_unit_range.
  - apply dr_clamp_unit_range.
  - now apply blend_eval_weighted_sum.
Qed.

Lemma blend_eval_unrestricted_witness :
  BlendPhaseFunction_eval (VA := scalar_variant) blend_03 ctx_unrestricted
                          mi_z wo_forward true =
  (1 - dr_clamp (3 / 10) 0 1) *
    HGPhaseFunction_eval (VA := scalar_variant) hg_iso ctx_unrestricted mi_z
                         wo_forward true +
  dr_clamp (3 / 10) 0 1 *
    HGPhaseFunction_eval (VA := scalar_variant) hg_fwd ctx_unrestricted mi_z
                         wo_forward true.
Proof.
  apply (@blend_eval_unrestricted scalar_variant blend_03 ctx_unrestricted
           mi_z wo_forward true eq_refl).
Defined.

(** ** The blend, restricted mode *)

Lemma to_uint32_rebase (k n0 : Z) :
  (0 <= n0 <= k)%Z -> (k < 4294967296)%Z ->
  to_uint32 (k - to_uint32 n0) = (k - n0)%Z.
Proof.
  intros Hn Hk. unfold to_uint32.
  rewrite (Z.mod_small n0) by lia. apply Z.mod_small. lia.
Qed.

Lemma component_count_nonneg {Float : Type} (ph : PhaseFunction Float) :
  (0 <= component_count ph)%Z.
Proof. unfold component_count. lia. Qed.

Section BlendRestricted.
Context {VA : Variant R}.
Variable self : BlendPhaseFunction (Float := R).
Variable ctx : PhaseFunctionContext.
Variable mi : MediumInteraction3f R.
Variable active : Mask.
Hypothesis Hk : (0 <= component ctx < uint32_max)%Z.

Local Abbreviation p0 := (fst (m_nested_phase self)).
Local Abbreviation p1 := (snd (m_nested_phase self)).
Local Abbreviation a := (MI_MASKED_FUNCTION active).
Local Abbreviation w := (BlendPhaseFunction_eval_weight self mi a).

Lemma restricted_not_sentinel : (component ctx =? uint32_max)%Z = false.
Proof. apply Z.eqb_neq. lia. Qed.

Lemma blend_sample_restricted_first (sample1 : R) (sample2 : Point2f R) :
  (component ctx < component_count p0)%Z ->
  BlendPhaseFunction_sample self ctx mi sample1 sample2 active =
  (fst (sample p0 ctx mi sample1 sample2 a),
   snd (sample p0 ctx mi sample1 sample2 a) * (1 - w)).
Proof.
  intros Hlt. unfold BlendPhaseFunction_sample.
  rewrite restricted_not_sentinel. cbn [negb].
  apply Z.ltb_lt in Hlt. rewrite Hlt. cbn [negb].
  destruct (sample p0 ctx mi sample1 sample2 a) as [wo pdf]. reflexivity.
Qed.

Lemma blend_sample_restricted_second (sample1 : R) (sample2 : Point2f R) :
  (component_count p0 <= component ctx)%Z ->
  let ctx2 := set_component ctx (component ctx - component_count p0) in
  BlendPhaseFunction_sample self ctx mi sample1 sample2 active =
  (fst (sample p1 ctx2 mi sample1 sample2 a),
   snd (sample p1 ctx2 mi sample1 sample2 a) * w).
Proof.
  intros Hge ctx2. unfold BlendPhaseFunction_sample.
  rewrite restricted_not_sentinel. cbn [negb].
  assert (Hlt : (component ctx <? component_count p0)%Z = false)
    by (apply Z.ltb_ge; exact Hge).
  rewrite Hlt. cbn [negb].
  rewrite to_uint32_rebase
    by (pose proof (component_count_nonneg p0); unfold uint32_max in Hk; lia).
  fold ctx2.
  destruct (sample p1 ctx2 mi sample1 sample2 a) as [wo pdf]. reflexivity.
Qed.

Lemma blend_eval_restricted_first (wo : Vector3f R) :
  (component ctx < component_count p0)%Z ->
  BlendPhaseFunction_eval self ctx mi wo active =
  (1 - w) * eval p0 ctx mi wo a.
Proof.
  intros Hlt. unfold BlendPhaseFunction_eval.
  rewrite restricted_not_sentinel. cbn [negb].
  apply Z.ltb_lt in Hlt. rewrite Hlt. reflexivity.
Qed.

Lemma blend_eval_restricted_second (wo : Vector3f R) :
  (component_count p0 <= component ctx)%Z ->
  BlendPhaseFunction_eval self ctx mi wo active =
  w * eval p1 (set_component ctx (component ctx - component_count p0))
           mi wo a.
Proof.
  intros Hge. unfold BlendPhaseFunction_eval.
  rewrite restricted_not_sentinel. cbn [negb].
  assert (Hlt : (component ctx <? component_count p0)%Z = false)
    by (apply Z.ltb_ge; exact Hge).
  rewrite Hlt. cbn [negb].
  rewrite to_uint32_rebase
    by (pose proof (component_count_nonneg p0); unfold uint32_max in Hk; lia).
  reflexivity.
Qed.
End BlendRestricted.

(** C3. In restricted mode (the component index [k] of the context is a
    [uint32_t] other than the sentinel): when [k] is below the component
    count of child 0, [sample] and [eval] go to child 0 under the same
    context and the density is scaled by [1 - w]; otherwise they go to
    child 1 under the context whose index is [k] minus that count and the
    density is scaled by [w].  [sample] hands on its two sample arguments as
    they are and returns the child's direction as it is. *)
Theorem blend_restricted_forwarding
        (VA : Variant R) (self : BlendPhaseFunction (Float := R))
        (ctx : PhaseFunctionContext) (mi : MediumInteraction3f R)
        (sample1 : R) (sample2 : Point2f R) (wo : Vector3f R) (active : Mask) :
  (0 <= component ctx < uint32_max)%Z ->
  let p0 := fst (m_nested_phase self) in
  let p1 := snd (m_nested_phase self) in
  let a := MI_MASKED_FUNCTION active in
  let w := dr_clamp (eval_1 (m_weight self) mi a) 0 1 in
  let ctx2 := set_component ctx (component ctx - component_count p0) in
  ((component ctx < component_count p0)%Z ->
   BlendPhaseFunction_sample self ctx mi sample1 sample2 active =
   (fst (sample p0 ctx mi sample1 sample2 a),
    snd (sample p0 ctx mi sample1 sample2 a) * (1 - w)) /\
   BlendPhaseFunction_eval self ctx mi wo active =
   (1 - w) * eval p0 ctx mi wo a)
  /\
  ((component_count p0 <= component ctx)%Z ->
   BlendPhaseFunction_sample self ctx mi sample1 sample2 active =
   (fst (sample p1 ctx2 mi sample1 sample2 a),
    snd (sample p1 ctx2 mi sample1 sample2 a) * w) /\
   BlendPhaseFunction_eval self ctx mi wo active =
   w * eval p1 ctx2 mi wo a).
Proof.
  intros Hk p0 p1 a w ctx2. split; intros Hcmp; split.
  - now apply blend_sample_restricted_first.
  - now apply blend_eval_restricted_first.
  - now apply blend_sample_restricted_second.
  - now apply blend_eval_restricted_second.
Qed.

Lemma blend_restricted_forwarding_witness :
  BlendPhaseFunction_sample (VA := scalar_variant) blend_03 (ctx_component 1)
                            mi_z (1 / 2) sample2_mid true =
  (fst (HGPhaseFunction_sample (VA := scalar_variant) hg_fwd (ctx_component 0)
          mi_z (1 / 2) sample2_mid true),
   snd (HGPhaseFunction_sample (VA := scalar_variant) hg_fwd (ctx_component 0)
          mi_z (1 / 2) sample2_mid true) * dr_clamp (3 / 10) 0 1) /\
  BlendPhaseFunction_eval (VA := scalar_variant) blend_03 (ctx_component 1)
                          mi_z wo_forward true =
  dr_clamp (3 / 10) 0 1 *
  HGPhaseFunction_eval (VA := scalar_variant) hg_fwd (ctx_component 0) mi_z
                       wo_forward true.
Proof.
  assert (Hk : (0 <= component (ctx_component 1) < uint32_max)%Z)
    by (cbn; unfold uint32_max; lia).
  apply (proj2 (@blend_restricted_forwarding scalar_variant blend_03
                  (ctx_component 1) mi_z (1 / 2) sample2_mid wo_forward true Hk)).
  cbn. lia.
Defined.

(** ** Degenerate weights *)

Section BlendDegenerate.
Context {VA : Variant R}.
Variable self : BlendPhaseFunction (Float := R).
Variable ctx : PhaseFunctionContext.
Variable mi : MediumInteraction3f R.
Variable active : Mask.
Hypothesis Hctx : component ctx = uint32_max.
Hypothesis Hactive : MI_MASKED_FUNCTION active = true.

(** Weight 1: every first sample of [0, 1) goes to child 1, which is
    handed [u1 / 1]. *)
Lemma blend_sample_weight_one (u1 : R) (sample2 : Point2f R) :
  1 <= eval_1 (m_weight self) mi true ->
  u1 < 1 ->
  BlendPhaseFunction_sample self ctx mi u1 sample2 active =
  sample (snd (m_nested_phase self)) ctx mi (u1 / 1) sample2 true.
Proof.
  intros Hw Hu.
  rewrite blend_sample_second_child by
    (trivial; unfold BlendPhaseFunction_eval_weight;
     rewrite dr_clamp_unit_above by exact Hw; lra).
  unfold BlendPhaseFunction_eval_weight.
  rewrite dr_clamp_unit_above by exact Hw. reflexivity.
Qed.

(** Weight 0, positive first sample: child 0, handed [(u1 - 0) / (1 - 0)]. *)
Lemma blend_sample_weight_zero_positive (u1 : R) (sample2 : Point2f R) :
  eval_1 (m_weight self) mi true <= 0 ->
  0 < u1 ->
  BlendPhaseFunction_sample self ctx mi u1 sample2 active =
  sample (fst (m_nested_phase self)) ctx mi ((u1 - 0) / (1 - 0)) sample2 true.
Proof.
  intros Hw Hu.
  rewrite blend_sample_first_child by
    (trivial; unfold BlendPhaseFunction_eval_weight;
     rewrite dr_clamp_unit_below by exact Hw; lra).
  unfold BlendPhaseFunction_eval_weight.
  rewrite dr_clamp_unit_below by exact Hw. reflexivity.
Qed.

(** Weight 0, first sample 0: the comparison [sample1 <= weight] holds, so
    child 1 is sampled, and it is handed the quotient [0 / 0]. *)
Lemma blend_sample_weight_zero_at_zero (sample2 : Point2f R) :
  eval_1 (m_weight self) mi true <= 0 ->
  BlendPhaseFunction_sample self ctx mi 0 sample2 active =
  sample (snd (m_nested_phase self)) ctx mi (0 / 0) sample2 true.
Proof.
  intros Hw.
  rewrite blend_sample_second_child by
    (trivial; unfold BlendPhaseFunction_eval_weight;
     rewrite dr_clamp_unit_below by exact Hw; lra).
  unfold BlendPhaseFunction_eval_weight.
  rewrite dr_clamp_unit_below by exact Hw. reflexivity.
Qed.
End BlendDegenerate.

(** ** The Henyey-Greenstein kernel *)

Lemma hg_base_positive (g c : R) :
  -1 < g < 1 -> -1 <= c <= 1 -> 0 < 1 + g * g + 2 * g * c.
Proof.
  intros Hg Hc.
  destruct (Rle_dec 0 g) as [Hpos | Hneg].
  - assert (0 < (1 - g) * (1 - g)) by (apply Rmult_lt_0_compat; lra).
    assert (0 <= g * (c + 1)) by (apply Rmult_le_pos; lra).
    nra.
  - assert (0 < (1 + g) * (1 + g)) by (apply Rmult_lt_0_compat; lra).
    assert (0 <= (- g) * (1 - c)) by (apply Rmult_le_pos; lra).
    nra.
Qed.

Lemma Rpower_three_halves (b : R) : 0 < b -> Rpower b (3 / 2) = b * sqrt b.
Proof.
  intros Hb.
  replace (3 / 2) with (1 + / 2) by lra.
  rewrite Rpower_plus, Rpower_1, Rpower_sqrt by exact Hb.
  reflexivity.
Qed.

Lemma hg_eval_hg_unfold (self : HGPhaseFunction (Float := R)) (c : R) :
  HGPhaseFunction_eval_hg self c =
  1 / (4 * PI) * (1 - m_g self * m_g self) /
  ((1 + m_g self * m_g self + 2 * m_g self * c) *
   sqrt (1 + m_g self * m_g self + 2 * m_g self * c)).
Proof. reflexivity. Qed.

(** C6. For [|g| < 1] and a cosine in [-1, 1] the base
    [1 + g^2 + 2 g cosTheta] is strictly positive, the denominator the code
    divides by is not zero, and [eval_hg], hence [eval] at a direction with
    that cosine to [wi], is
    [(1 / 4 pi) (1 - g^2) / (1 + g^2 + 2 g cosTheta)^(3/2)]. *)
Theorem hg_eval_closed_form
        (VA : Variant R) (self : HGPhaseFunction (Float := R)) (cos_theta : R) :
  -1 < m_g self < 1 ->
  -1 <= cos_theta <= 1 ->
  let g := m_g self in
  let base := 1 + g ^ 2 + 2 * g * cos_theta in
  0 < base /\
  base * sqrt base <> 0 /\
  HGPhaseFunction_eval_hg self cos_theta =
  1 / (4 * PI) * (1 - g ^ 2) / Rpower base (3 / 2) /\
  forall ctx mi wo active,
    dr_dot wo (wi mi) = cos_theta ->
    HGPhaseFunction_eval self ctx mi wo active =
    1 / (4 * PI) * (1 - g ^ 2) / Rpower base (3 / 2).
Proof.
  intros Hg Hc g base.
  assert (Hbase : 0 < base).
  { unfold base, g. replace (m_g self ^ 2) with (m_g self * m_g self) by ring.
    now apply hg_base_positive. }
  assert (Hform : HGPhaseFunction_eval_hg self cos_theta =
                  1 / (4 * PI) * (1 - g ^ 2) / Rpower base (3 / 2)).
  { rewrite hg_eval_hg_unfold, Rpower_three_halves by exact Hbase.
    unfold base, g. replace (m_g self ^ 2) with (m_g self * m_g self) by ring.
    reflexivity. }
  repeat split.
  - exact Hbase.
  - apply Rmult_integral_contrapositive_currified.
    + lra.
    + pose proof (sqrt_lt_R0 base Hbase). lra.
  - exact Hform.
  - intros ctx mi wo active Hdot.
    unfold HGPhaseFunction_eval. rewrite Hdot. exact Hform.
Qed.

Lemma hg_eval_closed_form_witness :
  0 < 1 + (1 / 2) ^ 2 + 2 * (1 / 2) * (-1) /\
  HGPhaseFunction_eval (VA := scalar_variant) hg_fwd ctx_unrestricted mi_z
                       wo_forward true =
  1 / (4 * PI) * (1 - (1 / 2) ^ 2) /
  Rpower (1 + (1 / 2) ^ 2 + 2 * (1 / 2) * (-1)) (3 / 2).
Proof.
  assert (Hg : -1 < m_g hg_fwd < 1) by (cbn; lra).
  assert (Hc : -1 <= -1 <= 1) by lra.
  destruct (@hg_eval_closed_form scalar_variant hg_fwd (-1) Hg Hc)
    as (Hbase & _ & _ & Heval).
  split.
  - exact Hbase.
  - apply Heval. cbn. lra.
Defined.

Lemma to_world_dot_wi (mi : MediumInteraction3f R) (v : Vector3f R) :
  frame_of_wi mi -> dr_dot (to_world mi v) (wi mi) = vz v.
Proof.
  intros (Hs & Ht & Hn). unfold dr_dot, to_world in *. cbn in *.
  transitivity
    (vx v * (vx (s (sh_frame mi)) * vx (wi mi) + vy (s (sh_frame mi)) * vy (wi mi)
             + vz (s (sh_frame mi)) * vz (wi mi))
     + vy v * (vx (t (sh_frame mi)) * vx (wi mi) + vy (t (sh_frame mi)) * vy (wi mi)
               + vz (t (sh_frame mi)) * vz (wi mi))
     + vz v * (vx (n (sh_frame mi)) * vx (wi mi) + vy (n (sh_frame mi)) * vy (wi mi)
               + vz (n (sh_frame mi)) * vz (wi mi))).
  - ring.
  - rewrite Hs, Ht, Hn. ring.
Qed.

Lemma hg_sample_unfold (VA : Variant R) (self : HGPhaseFunction (Float := R))
      (ctx : PhaseFunctionContext) (mi : MediumInteraction3f R)
      (sample1 : R) (sample2 : Point2f R) (active : Mask) :
  HGPhaseFunction_sample self ctx mi sample1 sample2 active =
  let cos_theta := HGPhaseFunction_cos_theta self sample2 in
  let sin_theta := sqrt (Rmax (1 - cos_theta * cos_theta) 0) in
  (to_world mi {| vx := sin_theta * cos (2 * PI * y sample2);
                  vy := sin_theta * sin (2 * PI * y sample2);
                  vz := - cos_theta |},
   HGPhaseFunction_eval_hg self (- cos_theta)).
Proof. reflexivity. Qed.

(** C7. When the frame of the interaction is the frame of its incoming
    direction, the density returned by [sample] is [eval] at the returned
    direction: the cosine between that direction and [wi] (both pointing
    away from the scattering point) is the negated deflection cosine, the
    argument at which [sample] calls [eval_hg]. *)
Theorem hg_sample_density_is_eval
        (VA : Variant R) (self : HGPhaseFunction (Float := R))
        (ctx : PhaseFunctionContext) (mi : MediumInteraction3f R)
        (sample1 : R) (sample2 : Point2f R) (active : Mask) :
  frame_of_wi mi ->
  let r := HGPhaseFunction_sample self ctx mi sample1 sample2 active in
  let cos_theta := HGPhaseFunction_cos_theta self sample2 in
  snd r = HGPhaseFunction_eval self ctx mi (fst r) active /\
  dr_dot (fst r) (wi mi) = - cos_theta /\
  snd r = HGPhaseFunction_eval_hg self (- cos_theta).
Proof.
  intros Hframe r cos_theta.
  assert (Hdot : dr_dot (fst r) (wi mi) = - cos_theta).
  { unfold r. rewrite hg_sample_unfold. cbn [fst].
    rewrite to_world_dot_wi by exact Hframe. reflexivity. }
  repeat split.
  - unfold HGPhaseFunction_eval. rewrite Hdot. reflexivity.
  - exact Hdot.
Qed.

Lemma hg_sample_density_is_eval_witness :
  snd (HGPhaseFunction_sample (VA := scalar_variant) hg_fwd ctx_unrestricted
                              mi_z (1 / 3) sample2_mid true) =
  HGPhaseFunction_eval (VA := scalar_variant) hg_fwd ctx_unrestricted mi_z
    (fst (HGPhaseFunction_sample (VA := scalar_variant) hg_fwd ctx_unrestricted
                                 mi_z (1 / 3) sample2_mid true)) true.
Proof.
  assert (Hframe : frame_of_wi mi_z).
  { unfold frame_of_wi, dr_dot. cbn. repeat split; ring. }
  apply (@hg_sample_density_is_eval scalar_variant hg_fwd ctx_unrestricted
           mi_z (1 / 3) sample2_mid true Hframe).
Defined.

(** C10. [sample] of the Henyey-Greenstein kernel does not look at its
    one-dimensional sample (nor at the context): the result is a function of
    the kernel, the interaction and the two-dimensional sample.  Hence the
    value a blend hands on as one-dimensional sample to such a child, on
    either branch, has no effect on what the blend returns. *)
Theorem hg_sample_ignores_sample1
        (VA : Variant R) (self : HGPhaseFunction (Float := R))
        (mi : MediumInteraction3f R) (sample2 : Point2f R) (active : Mask) :
  (forall ctx ctx' sample1 sample1',
      HGPhaseFunction_sample self ctx mi sample1 sample2 active =
      HGPhaseFunction_sample self ctx' mi sample1' sample2 active)
  /\
  (forall (w : Volume R) (other : PhaseFunction R) ctx (u1 any : R),
      component ctx = uint32_max ->
      MI_MASKED_FUNCTION active = true ->
      (u1 > dr_clamp (eval_1 w mi true) 0 1 ->
       BlendPhaseFunction_sample
         (BlendPhaseFunction_init w (HGPhaseFunction_Base self) other)
         ctx mi u1 sample2 active =
       HGPhaseFunction_sample self ctx mi any sample2 active) /\
      (u1 <= dr_clamp (eval_1 w mi true) 0 1 ->
       BlendPhaseFunction_sample
         (BlendPhaseFunction_init w other (HGPhaseFunction_Base self))
         ctx mi u1 sample2 active =
       HGPhaseFunction_sample self ctx mi any sample2 active)).
Proof.
  split.
  - intros ctx ctx' sample1 sample1'. reflexivity.
  - intros w other ctx u1 any Hctx Hactive. split; intros Hu.
    + rewrite blend_sample_first_child by (trivial; exact Hu).
      reflexivity.
    + rewrite blend_sample_second_child by (trivial; exact Hu).
      reflexivity.
Qed.

Lemma hg_sample_ignores_sample1_witness :
  BlendPhaseFunction_sample (VA := scalar_variant) blend_03 ctx_unrestricted
                            mi_z (1 / 2) sample2_mid true =
  HGPhaseFunction_sample (VA := scalar_variant) hg_iso ctx_unrestricted mi_z
                         (7 / 8) sample2_mid true.
Proof.
  refine (proj1 (proj2 (@hg_sample_ignores_sample1 scalar_variant hg_iso mi_z
                          sample2_mid true)
                       (const_volume (3 / 10))
                       (HGPhaseFunction_Base (VA := scalar_variant) hg_fwd)
                       ctx_unrestricted (1 / 2) (7 / 8) eq_refl eq_refl) _).
  cbn [const_volume eval_1]. rewrite dr_clamp_unit_id; lra.
Defined.

(** ** Construction of the Henyey-Greenstein kernel *)

Lemma hg_new_supplied (VA : Variant R) (props : Properties R) (v : R) :
  props_find "g" props = Some (PFloat v) ->
  HGPhaseFunction_new props =
  if fge v 1 || fle v (-1)
  then Throw "The asymmetry parameter must lie in the interval (-1, 1)!"
  else Return (HGPhaseFunction_init v).
Proof.
  intros Hfind. unfold HGPhaseFunction_new, props_get_float.
  rewrite Hfind. cbn [bind].
  change (fofZ (-1)) with (-1). change (fofZ 1) with 1.
  destruct (fge v 1 || fle v (-1)); reflexivity.
Qed.

Lemma hg_range_check (v : R) :
  fge v 1 || fle v (-1) = false <-> -1 < v < 1.
Proof.
  rewrite orb_false_iff. cbn.
  destruct (Rge_dec v 1), (Rle_dec v (-1)); split; intros; try easy; lra.
Qed.

(** Whatever the constructor returns was assembled by lines 56-58 and has
    a single component. *)
Lemma hg_constructor_shape (VA : Variant R) (props : Properties R)
      (self : HGPhaseFunction (Float := R)) :
  HGPhaseFunction_new props = Return self ->
  self = HGPhaseFunction_init (m_g self) /\
  component_count (HGPhaseFunction_Base self) = 1%Z.
Proof.
  unfold HGPhaseFunction_new. intros Hnew.
  destruct (props_get_float props "g" (flit (8 # 10))) as [v | msg];
    cbn [bind] in Hnew; [| discriminate].
  destruct (_ || _)%bool; cbn [bind Log_Error] in Hnew; [discriminate |].
  injection Hnew as <-. split; reflexivity.
Qed.

(** C8. With a value [v] supplied for [g], the constructor fails exactly
    when [v] is outside the open interval (-1, 1), and otherwise returns the
    kernel with that asymmetry parameter. *)
Theorem hg_constructor_open_interval
        (VA : Variant R) (props : Properties R) (v : R) :
  props_find "g" props = Some (PFloat v) ->
  (failed (HGPhaseFunction_new props) <-> ~ (-1 < v < 1)) /\
  (-1 < v < 1 -> HGPhaseFunction_new props = Return (HGPhaseFunction_init v)).
Proof.
  intros Hfind. rewrite (hg_new_supplied VA props Hfind).
  destruct (fge v 1 || fle v (-1)) eqn:Hchk.
  - assert (Hout : ~ (-1 < v < 1)).
    { intros Hin. apply hg_range_check in Hin. congruence. }
    split.
    + split; intros _; [exact Hout | eexists; reflexivity].
    + intros Hin. contradiction.
  - apply hg_range_check in Hchk. split.
    + split.
      * intros [msg Hmsg]. discriminate.
      * intros Hout. contradiction.
    + reflexivity.
Qed.

Lemma hg_constructor_open_interval_witness :
  failed (HGPhaseFunction_new (VA := scalar_variant) [("g"%string, PFloat 1)]) /\
  failed (HGPhaseFunction_new (VA := scalar_variant) [("g"%string, PFloat (-1))]) /\
  failed (HGPhaseFunction_new (VA := scalar_variant)
            [("g"%string, PFloat (15 / 10))]) /\
  HGPhaseFunction_new (VA := scalar_variant)
    [("g"%string, PFloat (999999 / 1000000))] =
  Return (HGPhaseFunction_init (VA := scalar_variant) (999999 / 1000000)).
Proof.
  repeat split.
  - apply (proj1 (@hg_constructor_open_interval scalar_variant
                    [("g"%string, PFloat 1)] 1 eq_refl)). lra.
  - apply (proj1 (@hg_constructor_open_interval scalar_variant
                    [("g"%string, PFloat (-1))] (-1) eq_refl)). lra.
  - apply (proj1 (@hg_constructor_open_interval scalar_variant
                    [("g"%string, PFloat (15 / 10))] (15 / 10) eq_refl)). lra.
  - apply (proj2 (@hg_constructor_open_interval scalar_variant
                    [("g"%string, PFloat (999999 / 1000000))]
                    (999999 / 1000000) eq_refl)). lra.
Defined.

(** ** Construction of the blend *)

Section BlendConstruction.
Context {Float : Type}.
Implicit Types (objs : list (string * Object Float))
         (nested : option (PhaseFunction Float) * option (PhaseFunction Float)).

Lemma children_of_cons (name : string) (obj : Object Float) objs :
  children_of ((name, obj) :: objs) =
  match dynamic_cast_Base obj with
  | Some phase => phase :: children_of objs
  | None => children_of objs
  end.
Proof. unfold children_of. cbn. destruct (dynamic_cast_Base obj); reflexivity. Qed.

(** With room left in the array the loop ends normally and has counted the
    children. *)
Lemma collect_nested_counts objs :
  forall (phase_index : Z) nested,
    (0 <= phase_index)%Z ->
    (phase_index + Z.of_nat (List.length (children_of objs)) <= 2)%Z ->
    exists nested',
      collect_nested objs phase_index nested =
      Return ((phase_index + Z.of_nat (List.length (children_of objs)))%Z, nested').
Proof.
  induction objs as [| [name obj] rest IH]; intros phase_index nested Hlo Hhi.
  - cbn. exists nested. now rewrite Z.add_0_r.
  - rewrite children_of_cons in *. cbn [collect_nested].
    destruct (dynamic_cast_Base obj) as [phase |].
    + cbn [List.length] in *.
      assert (Hne : (phase_index =? 2)%Z = false) by (apply Z.eqb_neq; lia).
      rewrite Hne.
      destruct (IH (phase_index + 1)%Z (nested_store nested phase_index phase))
        as [nested' Hrun]; try lia.
      exists nested'. rewrite Hrun. f_equal. f_equal. lia.
    + now apply IH.
Qed.

(** A third child makes the loop throw. *)
Lemma collect_nested_overflow objs :
  forall (phase_index : Z) nested,
    (0 <= phase_index <= 2)%Z ->
    (2 < phase_index + Z.of_nat (List.length (children_of objs)))%Z ->
    failed (collect_nested objs phase_index nested).
Proof.
  induction objs as [| [name obj] rest IH]; intros phase_index nested Hlo Hhi.
  - cbn in Hhi. lia.
  - rewrite children_of_cons in *. cbn [collect_nested].
    destruct (dynamic_cast_Base obj) as [phase |].
    + cbn [List.length] in *.
      destruct (phase_index =? 2)%Z eqn:Hcmp.
      * eexists; reflexivity.
      * apply Z.eqb_neq in Hcmp. apply IH; lia.
    + now apply IH.
Qed.

(** Exactly two children fill the two slots in order. *)
Lemma collect_nested_none objs :
  children_of objs = [] ->
  forall (phase_index : Z) nested,
    collect_nested objs phase_index nested = Return (phase_index, nested).
Proof.
  induction objs as [| [name obj] rest IH]; intros Hch phase_index nested.
  - reflexivity.
  - rewrite children_of_cons in Hch. cbn [collect_nested].
    destruct (dynamic_cast_Base obj); [discriminate | now apply IH].
Qed.

Lemma collect_nested_one objs (q : PhaseFunction Float) :
  children_of objs = [q] ->
  forall nested,
    collect_nested objs 1 nested = Return (2%Z, (fst nested, Some q)).
Proof.
  induction objs as [| [name obj] rest IH]; intros Hch nested.
  - discriminate.
  - rewrite children_of_cons in Hch. cbn [collect_nested].
    destruct (dynamic_cast_Base obj) as [phase |].
    + injection Hch as -> Hrest. cbn.
      now rewrite (collect_nested_none _ Hrest).
    + now apply IH.
Qed.

Lemma collect_nested_two objs (q0 q1 : PhaseFunction Float) :
  children_of objs = [q0; q1] ->
  collect_nested objs 0 (None, None) = Return (2%Z, (Some q0, Some q1)).
Proof.
  induction objs as [| [name obj] rest IH]; intros Hch.
  - discriminate.
  - rewrite children_of_cons in Hch. cbn [collect_nested].
    destruct (dynamic_cast_Base obj) as [phase |].
    + injection Hch as -> Hrest. cbn.
      now rewrite (collect_nested_one _ Hrest).
    + now apply IH.
Qed.

Lemma phase_children_eq (props : Properties Float) :
  phase_children props = children_of (props_objects props).
Proof. reflexivity. Qed.

(** Construction succeeds on two children and a weight source. *)
Lemma blend_constructor_accepts (props : Properties Float)
      (q0 q1 : PhaseFunction Float) (w : Volume Float) :
  phase_children props = [q0; q1] ->
  props_volume props "weight" = Return w ->
  BlendPhaseFunction_new props = Return (BlendPhaseFunction_init w q0 q1).
Proof.
  intros Hch Hw. unfold BlendPhaseFunction_new.
  rewrite phase_children_eq in Hch.
  rewrite (collect_nested_two _ Hch). cbn [bind]. rewrite Hw. reflexivity.
Qed.

(** Whatever the constructor returns was assembled by lines 80-86 from a
    weight source and two children. *)
Lemma blend_constructor_shape (props : Properties Float)
      (self : BlendPhaseFunction) :
  BlendPhaseFunction_new props = Return self ->
  exists w q0 q1, self = BlendPhaseFunction_init w q0 q1.
Proof.
  unfold BlendPhaseFunction_new. intros Hnew.
  destruct (collect_nested (props_objects props) 0 (None, None))
    as [[phase_index nested] | msg]; cbn [bind] in Hnew; [| discriminate].
  destruct (props_volume props "weight") as [w | msg];
    cbn [bind] in Hnew; [| discriminate].
  destruct (negb (phase_index =? 2)%Z); [discriminate |].
  destruct nested as [[q0 |] [q1 |]]; try discriminate.
  injection Hnew as <-. now exists w, q0, q1.
Qed.

(** C9. Construction of the blend fails when the number of child phase
    functions supplied is not two, and when no weight source is supplied;
    no object is returned then. *)
Theorem blend_constructor_rejects (props : Properties Float) :
  List.length (phase_children props) <> 2%nat \/
  props_find "weight" props = None ->
  failed (BlendPhaseFunction_new props) /\
  forall self, BlendPhaseFunction_new props <> Return self.
Proof.
  intros Hbad.
  assert (Hfail : failed (BlendPhaseFunction_new props)).
  { unfold BlendPhaseFunction_new. rewrite phase_children_eq in Hbad.
    set (objs := props_objects props) in *.
    destruct (Z_le_gt_dec (Z.of_nat (List.length (children_of objs))) 2)
      as [Hle | Hgt].
    - destruct (collect_nested_counts objs (None, None) (Z.le_refl 0) Hle)
        as [nested' Hrun].
      rewrite Hrun. cbn [bind]. unfold props_volume.
      destruct (props_find "weight" props) as [[v | [ph | v |]] |] eqn:Hfind;
        cbn [bind]; try (eexists; reflexivity).
      + destruct Hbad as [Hcount | Hnone]; [| discriminate].
        assert (Hne : (Z.of_nat (List.length (children_of objs)) =? 2)%Z = false)
          by (apply Z.eqb_neq; lia).
        cbn [Z.add]. rewrite Hne. eexists; reflexivity.
      + destruct Hbad as [Hcount | Hnone]; [| discriminate].
        assert (Hne : (Z.of_nat (List.length (children_of objs)) =? 2)%Z = false)
          by (apply Z.eqb_neq; lia).
        cbn [Z.add]. rewrite Hne. eexists; reflexivity.
    - destruct (@collect_nested_overflow objs 0%Z (None, None)) as [msg Hrun];
        try lia.
      rewrite Hrun. eexists; reflexivity. }
  split; [exact Hfail |].
  intros self Hok. destruct Hfail as [msg Hmsg]. congruence.
Qed.
End BlendConstruction.

Lemma blend_constructor_rejects_witness :
  failed (BlendPhaseFunction_new props_one_child).
Proof.
  refine (proj1 (@blend_constructor_rejects R props_one_child _)).
  left. cbn. discriminate.
Defined.

(** ** Summing the restricted evaluations *)

Section Sums.
Variables f g : nat -> R.

Lemma fold_add_shift (l : list nat) :
  forall a, fold_left (fun acc k => acc + f k) l a =
            a + fold_left (fun acc k => acc + f k) l 0.
Proof.
  induction l as [| k l IH]; intros a; cbn [fold_left].
  - ring.
  - rewrite (IH (a + f k)), (IH (0 + f k)). ring.
Qed.

Lemma fold_add_ext (l : list nat) :
  (forall k, In k l -> f k = g k) ->
  forall a, fold_left (fun acc k => acc + f k) l a =
            fold_left (fun acc k => acc + g k) l a.
Proof.
  induction l as [| k l IH]; intros Heq a; cbn [fold_left].
  - reflexivity.
  - rewrite (Heq k) by (left; reflexivity).
    apply IH. intros j Hj. apply Heq. right. exact Hj.
Qed.

Lemma fold_add_scale (c : R) (l : list nat) :
  fold_left (fun acc k => acc + c * f k) l 0 =
  c * fold_left (fun acc k => acc + f k) l 0.
Proof.
  induction l as [| k l IH] using rev_ind.
  - cbn. ring.
  - rewrite !fold_left_app. cbn [fold_left]. rewrite IH. ring.
Qed.
End Sums.

Lemma fold_add_seq_offset (len : nat) :
  forall (start : nat) (f : nat -> R) (a : R),
    fold_left (fun acc k => acc + f k) (seq start len) a =
    fold_left (fun acc j => acc + f (start + j)%nat) (seq 0 len) a.
Proof.
  induction len as [| len IH]; intros start f a.
  - reflexivity.
  - cbn [seq fold_left].
    rewrite (IH (S start) f), (IH 1%nat (fun j => f (start + j)%nat)).
    rewrite Nat.add_0_r.
    apply fold_add_ext. intros j _. f_equal. lia.
Qed.

Lemma eval_component_sum_R
      (ph : PhaseFunction R) (ctx : PhaseFunctionContext)
      (mi : MediumInteraction3f R) (wo : Vector3f R) (active : Mask) :
  eval_component_sum ph ctx mi wo active =
  fold_left (fun acc k => acc + eval ph (set_component ctx (Z.of_nat k)) mi wo active)
            (seq 0 (List.length (m_components ph))) 0.
Proof.
  unfold eval_component_sum, component_count. rewrite Nat2Z.id. reflexivity.
Qed.

(** The component list of a blend is the children's lists, one after the
    other. *)
Lemma blend_components_concat {Float : Type}
      (w : Volume Float) (p0 p1 : PhaseFunction Float) :
  blend_m_components (BlendPhaseFunction_init w p0 p1) =
  m_components p0 ++ m_components p1.
Proof.
  assert (Hnth : forall ph : PhaseFunction Float,
             map (fun j => flags_at ph j)
                 (seq 0 (Z.to_nat (component_count ph))) = m_components ph).
  { intros ph. unfold component_count, flags_at. rewrite Nat2Z.id.
    apply nth_ext with (d := 0%Z) (d' := 0%Z).
    - now rewrite length_map, length_seq.
    - intros i Hi. rewrite length_map, length_seq in Hi.
      rewrite (nth_indep _ 0%Z (nth 0 (m_components ph) 0%Z))
        by now rewrite length_map, length_seq.
      rewrite (map_nth (fun j => nth j (m_components ph) 0%Z)).
      rewrite seq_nth by exact Hi. reflexivity. }
  cbn [BlendPhaseFunction_init blend_m_components flat_map].
  rewrite !Hnth, app_nil_r. reflexivity.
Qed.

Lemma blend_component_count
      {Float : Type} {DF : DrFloat Float} {VA : Variant Float}
      (w : Volume Float) (p0 p1 : PhaseFunction Float) :
  component_count (BlendPhaseFunction_Base (BlendPhaseFunction_init w p0 p1)) =
  (component_count p0 + component_count p1)%Z.
Proof.
  unfold component_count. cbn [BlendPhaseFunction_Base m_components].
  rewrite blend_components_concat, length_app. lia.
Qed.

(** The sum over the components of a blend splits into the children's sums,
    scaled as the children are. *)
Lemma blend_component_sum_split
      (VA : Variant R) (w : Volume R) (p0 p1 : PhaseFunction R)
      (ctx : PhaseFunctionContext) (mi : MediumInteraction3f R)
      (wo : Vector3f R) (active : Mask) :
  (component_count p0 + component_count p1 <= uint32_max)%Z ->
  let self := BlendPhaseFunction_init w p0 p1 in
  let a := MI_MASKED_FUNCTION active in
  let wt := BlendPhaseFunction_eval_weight self mi a in
  eval_component_sum (BlendPhaseFunction_Base self) ctx mi wo active =
  (1 - wt) * eval_component_sum p0 ctx mi wo a +
  wt * eval_component_sum p1 ctx mi wo a.
Proof.
  intros Hmax self a wt.
  rewrite !eval_component_sum_R.
  cbn [BlendPhaseFunction_Base m_components eval].
  assert (Hfst : fst (m_nested_phase self) = p0) by reflexivity.
  assert (Hsnd : snd (m_nested_phase self) = p1) by reflexivity.
  replace (blend_m_components self) with (m_components p0 ++ m_components p1)
    by (symmetry; apply blend_components_concat).
  rewrite length_app, seq_app.
  rewrite fold_left_app, fold_add_shift. cbn [Nat.add].
  unfold component_count in Hmax.
  set (n0 := List.length (m_components p0)) in *.
  set (n1 := List.length (m_components p1)) in *.
  f_equal.
  - rewrite <- fold_add_scale. apply fold_add_ext.
    intros k Hk. apply in_seq in Hk.
    rewrite blend_eval_restricted_first.
    + rewrite Hfst. reflexivity.
    + cbn [set_component component]. unfold uint32_max in *. lia.
    + rewrite Hfst. cbn [set_component component].
      unfold component_count. fold n0. lia.
  - rewrite fold_add_seq_offset, <- fold_add_scale. apply fold_add_ext.
    intros j Hj. apply in_seq in Hj.
    rewrite blend_eval_restricted_second.
    + rewrite Hfst, Hsnd. cbn [set_component component mode type_mask].
      unfold component_count. fold n0.
      replace (Z.of_nat (n0 + j) - Z.of_nat n0)%Z with (Z.of_nat j) by lia.
      reflexivity.
    + cbn [set_component component]. unfold uint32_max in *. lia.
    + rewrite Hfst. cbn [set_component component].
      unfold component_count. fold n0. lia.
Qed.

(** Every kernel is consistent with its components: the restricted
    evaluations add up to the unrestricted one. *)
Lemma kernel_component_sum (VA : Variant R) (k : Kernel) :
  forall (ctx : PhaseFunctionContext) (mi : MediumInteraction3f R)
         (wo : Vector3f R) (active : Mask),
    (component_count (kernel_phase k) <= uint32_max)%Z ->
    component ctx = uint32_max ->
    eval_component_sum (kernel_phase k) ctx mi wo active =
    eval (kernel_phase k) ctx mi wo active.
Proof.
  induction k as [g | w k0 IH0 k1 IH1]; intros ctx mi wo active Hmax Hctx.
  - rewrite eval_component_sum_R. cbn [kernel_phase].
    cbn [HGPhaseFunction_Base m_components eval HGPhaseFunction_init
         hg_m_components List.length seq fold_left].
    unfold HGPhaseFunction_eval. lra.
  - cbn [kernel_phase] in *. rewrite blend_component_count in Hmax.
    pose proof (component_count_nonneg (kernel_phase k0)).
    pose proof (component_count_nonneg (kernel_phase k1)).
    rewrite blend_component_sum_split by exact Hmax.
    rewrite IH0, IH1 by (trivial; lia).
    cbn [BlendPhaseFunction_Base eval].
    rewrite blend_eval_weighted_sum by exact Hctx.
    reflexivity.
Qed.

(** C4. For every blend this code builds whose component indices fit the
    [uint32_t] selector, at every interaction and direction, the restricted
    evaluations summed over all component indices equal the unrestricted
    evaluation. *)
Theorem blend_component_sum_is_unrestricted
        (VA : Variant R) (w : Volume R) (k0 k1 : Kernel)
        (ctx : PhaseFunctionContext) (mi : MediumInteraction3f R)
        (wo : Vector3f R) (active : Mask) :
  let mixture := kernel_phase (KBlend w k0 k1) in
  (component_count mixture <= uint32_max)%Z ->
  component ctx = uint32_max ->
  eval_component_sum mixture ctx mi wo active = eval mixture ctx mi wo active.
Proof.
  intros mixture Hmax Hctx.
  exact (kernel_component_sum VA (KBlend w k0 k1) ctx mi wo active Hmax Hctx).
Qed.

Lemma blend_component_sum_is_unrestricted_witness :
  eval_component_sum (kernel_phase (VA := scalar_variant) kernel_03)
                     ctx_unrestricted mi_z wo_forward true =
  eval (kernel_phase (VA := scalar_variant) kernel_03)
       ctx_unrestricted mi_z wo_forward true.
Proof.
  refine (@blend_component_sum_is_unrestricted scalar_variant
            (const_volume (3 / 10)) (KHG 0) (KHG (1 / 2))
            ctx_unrestricted mi_z wo_forward true _ eq_refl).
  cbn [kernel_phase]. rewrite blend_component_count.
  unfold component_count, uint32_max. cbn. lia.
Defined.

(** ** The failing input of the degenerate weight 0 *)

Lemma hg_iso_cos_theta :
  HGPhaseFunction_cos_theta (VA := scalar_variant) hg_iso sample2_mid = 0.
Proof.
  unfold HGPhaseFunction_cos_theta.
  cbn [hg_iso HGPhaseFunction_init m_g sample2_mid x Epsilon scalar_variant].
  change (fabs 0) with (Rabs 0). rewrite Rabs_R0.
  assert (Hlt : flt 0 (1 / 16777216) = true) by (apply flt_R; lra).
  rewrite Hlt. cbn. lra.
Qed.

Lemma hg_fwd_cos_theta :
  HGPhaseFunction_cos_theta (VA := scalar_variant) hg_fwd sample2_mid = 11 / 16.
Proof.
  unfold HGPhaseFunction_cos_theta.
  cbn [hg_fwd HGPhaseFunction_init m_g sample2_mid x Epsilon scalar_variant].
  change (fabs (1 / 2)) with (Rabs (1 / 2)).
  rewrite (Rabs_right (1 / 2)) by lra.
  assert (Hge : flt (1 / 2) (1 / 16777216) = false).
  { destruct (flt (1 / 2) (1 / 16777216)) eqn:Hcmp; [| reflexivity].
    apply flt_R in Hcmp. lra. }
  rewrite Hge. cbn. field.
Qed.

Lemma hg_iso_density (c : R) :
  c = 0 -> HGPhaseFunction_eval_hg hg_iso (- c) = 1 / (4 * PI).
Proof.
  intros ->. rewrite hg_eval_hg_unfold.
  cbn [hg_iso HGPhaseFunction_init m_g].
  replace (1 + 0 * 0 + 2 * 0 * - 0) with 1 by ring.
  rewrite sqrt_1. pose proof PI_RGT_0. field. lra.
Qed.

Lemma hg_fwd_density (c : R) :
  c = 11 / 16 -> HGPhaseFunction_eval_hg hg_fwd (- c) = 16 / 9 * (1 / (4 * PI)).
Proof.
  intros ->. rewrite hg_eval_hg_unfold.
  cbn [hg_fwd HGPhaseFunction_init m_g].
  replace (1 + 1 / 2 * (1 / 2) + 2 * (1 / 2) * - (11 / 16)) with (9 / 16) by field.
  rewrite (sqrt_lem_1 (9 / 16) (3 / 4)) by lra.
  pose proof PI_RGT_0. field. lra.
Qed.

(** C5, at the failing input.  Weight 0 and first sample 0: the blend of an
    isotropic child 0 and a forward child 1 samples child 1, handing it the
    quotient [0 / 0], and returns the density of child 1, which is not the
    density child 0 alone returns. *)
Theorem blend_zero_weight_zero_sample :
  let r := BlendPhaseFunction_sample (VA := scalar_variant) blend_0
             ctx_unrestricted mi_z 0 sample2_mid true in
  let r0 := HGPhaseFunction_sample (VA := scalar_variant) hg_iso
              ctx_unrestricted mi_z 0 sample2_mid true in
  r = HGPhaseFunction_sample (VA := scalar_variant) hg_fwd
        ctx_unrestricted mi_z (0 / 0) sample2_mid true /\
  snd r = 16 / 9 * (1 / (4 * PI)) /\
  snd r0 = 1 / (4 * PI) /\
  snd r <> snd r0.
Proof.
  intros r r0.
  assert (Hr : r = HGPhaseFunction_sample (VA := scalar_variant) hg_fwd
                     ctx_unrestricted mi_z (0 / 0) sample2_mid true).
  { unfold r.
    apply (@blend_sample_weight_zero_at_zero scalar_variant blend_0
             ctx_unrestricted mi_z true eq_refl eq_refl sample2_mid).
    cbn [blend_0 BlendPhaseFunction_init m_weight const_volume eval_1]. lra. }
  assert (H1 : snd r = 16 / 9 * (1 / (4 * PI))).
  { rewrite Hr, hg_sample_unfold. cbn [snd].
    apply hg_fwd_density, hg_fwd_cos_theta. }
  assert (H0 : snd r0 = 1 / (4 * PI)).
  { unfold r0. rewrite hg_sample_unfold. cbn [snd].
    apply hg_iso_density, hg_iso_cos_theta. }
  repeat split; trivial.
  rewrite H1, H0. pose proof PI_RGT_0.
  assert (0 < 1 / (4 * PI)) by (apply Rdiv_lt_0_compat; lra).
  lra.
Qed.

(** * Further properties of the Henyey-Greenstein kernel *)

Lemma hg_prefactor_positive (g : R) :
  -1 < g < 1 -> 0 < 1 / (4 * PI) * (1 - g * g).
Proof.
  intros Hg. pose proof PI_RGT_0.
  apply Rmult_lt_0_compat.
  - apply Rdiv_lt_0_compat; lra.
  - nra.
Qed.

Lemma three_halves_positive (b : R) : 0 < b -> 0 < b * sqrt b.
Proof.
  intros Hb. apply Rmult_lt_0_compat; [exact Hb | now apply sqrt_lt_R0].
Qed.

Lemma three_halves_monotone (b1 b2 : R) :
  0 < b1 -> b1 <= b2 -> b1 * sqrt b1 <= b2 * sqrt b2.
Proof.
  intros Hb1 Hle. apply Rmult_le_compat.
  - lra.
  - apply sqrt_pos.
  - exact Hle.
  - apply sqrt_le_1; lra.
Qed.

(** X1. The density is strictly positive on the whole domain. *)
Theorem hg_eval_positive (self : HGPhaseFunction (Float := R)) (cos_theta : R) :
  -1 < m_g self < 1 ->
  -1 <= cos_theta <= 1 ->
  0 < HGPhaseFunction_eval_hg self cos_theta.
Proof.
  intros Hg Hc. rewrite hg_eval_hg_unfold.
  apply Rdiv_lt_0_compat.
  - now apply hg_prefactor_positive.
  - apply three_halves_positive. now apply hg_base_positive.
Qed.

Lemma hg_eval_positive_witness :
  0 < HGPhaseFunction_eval_hg hg_fwd (-1).
Proof.
  apply (@hg_eval_positive hg_fwd (-1)).
  - cbn [hg_fwd HGPhaseFunction_init m_g]. lra.
  - lra.
Defined.

(** X2. With [g = 0] the density is [1 / (4 pi)] in every direction. *)
Theorem hg_eval_isotropic (self : HGPhaseFunction (Float := R)) (cos_theta : R) :
  m_g self = 0 ->
  HGPhaseFunction_eval_hg self cos_theta = 1 / (4 * PI).
Proof.
  intros Hg. rewrite hg_eval_hg_unfold, Hg.
  replace (1 + 0 * 0 + 2 * 0 * cos_theta) with 1 by ring.
  rewrite sqrt_1. pose proof PI_RGT_0. field. lra.
Qed.

Lemma hg_eval_isotropic_witness :
  HGPhaseFunction_eval_hg hg_iso (3 / 4) = 1 / (4 * PI).
Proof.
  apply (@hg_eval_isotropic hg_iso (3 / 4)). reflexivity.
Defined.

(** X3. Forward scattering: for [g >= 0] the density grows as the cosine
    between [wo] and [wi] falls, and is largest straight on; for [g <= 0]
    it is the other way round. *)
Theorem hg_eval_monotone (self : HGPhaseFunction (Float := R)) (c1 c2 : R) :
  -1 < m_g self < 1 ->
  -1 <= c1 -> c1 <= c2 -> c2 <= 1 ->
  (0 <= m_g self ->
   HGPhaseFunction_eval_hg self c2 <= HGPhaseFunction_eval_hg self c1) /\
  (m_g self <= 0 ->
   HGPhaseFunction_eval_hg self c1 <= HGPhaseFunction_eval_hg self c2).
Proof.
  intros Hg H1 H12 H2.
  pose proof (hg_prefactor_positive Hg) as HK.
  assert (Hb1 : 0 < 1 + m_g self * m_g self + 2 * m_g self * c1)
    by (apply hg_base_positive; lra).
  assert (Hb2 : 0 < 1 + m_g self * m_g self + 2 * m_g self * c2)
    by (apply hg_base_positive; lra).
  rewrite !hg_eval_hg_unfold. unfold Rdiv.
  split; intros Hsign.
  - apply Rmult_le_compat_l; [lra |].
    apply Rinv_le_contravar; [now apply three_halves_positive |].
    apply three_halves_monotone; [exact Hb1 | nra].
  - apply Rmult_le_compat_l; [lra |].
    apply Rinv_le_contravar; [now apply three_halves_positive |].
    apply three_halves_monotone; [exact Hb2 | nra].
Qed.

Lemma hg_eval_monotone_witness :
  HGPhaseFunction_eval_hg hg_fwd (1 / 2) <= HGPhaseFunction_eval_hg hg_fwd (-1).
Proof.
  assert (Hg : -1 < m_g hg_fwd < 1)
    by (cbn [hg_fwd HGPhaseFunction_init m_g]; lra).
  refine (proj1 (@hg_eval_monotone hg_fwd (-1) (1 / 2) Hg _ _ _) _).
  - lra.
  - lra.
  - lra.
  - cbn [hg_fwd HGPhaseFunction_init m_g]. lra.
Defined.

(** X4. Reversing the sign of [g] mirrors the density: the kernel of parameter
    [- g] at cosine [- c] has the density of the kernel of parameter [g] at
    cosine [c]. *)
Theorem hg_eval_mirror (VA : Variant R) (g c : R) :
  HGPhaseFunction_eval_hg (HGPhaseFunction_init (- g)) (- c) =
  HGPhaseFunction_eval_hg (HGPhaseFunction_init g) c.
Proof.
  rewrite !hg_eval_hg_unfold. cbn [HGPhaseFunction_init m_g].
  replace (1 + - g * - g + 2 * - g * - c) with (1 + g * g + 2 * g * c) by ring.
  replace (- g * - g) with (g * g) by ring. reflexivity.
Qed.

Lemma dr_dot_comm (a b : Vector3f R) : dr_dot a b = dr_dot b a.
Proof. unfold dr_dot. cbn. ring. Qed.

(** Reciprocity: exchanging the incoming and the outgoing direction does
    not change the value of [eval]; neither do the context, the mask, the
    position or the frame. *)
Theorem hg_eval_reciprocal
        (VA : Variant R) (self : HGPhaseFunction (Float := R))
        (ctx ctx' : PhaseFunctionContext) (mi : MediumInteraction3f R)
        (wo : Vector3f R) (active active' : Mask) :
  HGPhaseFunction_eval self ctx mi wo active =
  HGPhaseFunction_eval self ctx' (with_wi mi wo) (wi mi) active'.
Proof.
  unfold HGPhaseFunction_eval. cbn [with_wi wi].
  now rewrite dr_dot_comm.
Qed.

(** ** The deflection cosine drawn by [sample] *)

Lemma hg_cos_theta_isotropic_branch
      (VA : Variant R) (self : HGPhaseFunction (Float := R))
      (sample2 : Point2f R) :
  Rabs (m_g self) < Epsilon ->
  HGPhaseFunction_cos_theta self sample2 = 1 - 2 * x sample2.
Proof.
  intros Hsmall. unfold HGPhaseFunction_cos_theta.
  change (fabs (m_g self)) with (Rabs (m_g self)).
  apply flt_R in Hsmall. rewrite Hsmall. reflexivity.
Qed.

Lemma hg_cos_theta_general_branch
      (VA : Variant R) (self : HGPhaseFunction (Float := R))
      (sample2 : Point2f R) :
  Epsilon <= Rabs (m_g self) ->
  HGPhaseFunction_cos_theta self sample2 =
  (1 + m_g self * m_g self -
   (1 - m_g self * m_g self) / (1 - m_g self + 2 * m_g self * x sample2) *
   ((1 - m_g self * m_g self) / (1 - m_g self + 2 * m_g self * x sample2))) /
  (2 * m_g self).
Proof.
  intros Hbig. unfold HGPhaseFunction_cos_theta.
  change (fabs (m_g self)) with (Rabs (m_g self)).
  destruct (flt (Rabs (m_g self)) Epsilon) eqn:Hcmp.
  - apply flt_R in Hcmp. lra.
  - reflexivity.
Qed.

(** The denominator of [sqr_term] stays away from zero. *)
Lemma hg_sqr_term_denominator (g u : R) :
  -1 < g < 1 -> 0 <= u <= 1 -> 0 < 1 - g + 2 * g * u.
Proof.
  intros Hg Hu. destruct (Rle_dec 0 g).
  - assert (0 <= g * u) by (apply Rmult_le_pos; lra). lra.
  - assert (0 <= (- g) * (1 - u)) by (apply Rmult_le_pos; lra). nra.
Qed.

Lemma hg_cos_plus_one (g u : R) :
  g <> 0 -> 1 - g + 2 * g * u <> 0 ->
  (1 + g * g - (1 - g * g) / (1 - g + 2 * g * u) *
               ((1 - g * g) / (1 - g + 2 * g * u))) / (2 * g) + 1 =
  2 * ((1 + g) * (1 + g)) * u * (1 - g + g * u) /
  ((1 - g + 2 * g * u) * (1 - g + 2 * g * u)).
Proof. intros Hg HD. field. split; assumption. Qed.

Lemma hg_one_minus_cos (g u : R) :
  g <> 0 -> 1 - g + 2 * g * u <> 0 ->
  1 - (1 + g * g - (1 - g * g) / (1 - g + 2 * g * u) *
                   ((1 - g * g) / (1 - g + 2 * g * u))) / (2 * g) =
  2 * ((1 - g) * (1 - g)) * (1 - u) * (1 + g * u) /
  ((1 - g + 2 * g * u) * (1 - g + 2 * g * u)).
Proof. intros Hg HD. field. split; assumption. Qed.

Lemma Rabs_ge_positive (g eps : R) : 0 < eps -> eps <= Rabs g -> g <> 0.
Proof.
  intros Heps Hbig Hzero. subst g. rewrite Rabs_R0 in Hbig. lra.
Qed.

(** X5. [sample] never divides by zero: with a positive threshold, on the
    general branch neither [1 - g + 2 g u] nor [2 g] vanishes. *)
Theorem hg_sample_denominators_nonzero
        (VA : Variant R) (self : HGPhaseFunction (Float := R))
        (sample2 : Point2f R) :
  0 < Epsilon ->
  -1 < m_g self < 1 ->
  0 <= x sample2 <= 1 ->
  Epsilon <= Rabs (m_g self) ->
  0 < 1 - m_g self + 2 * m_g self * x sample2 /\ 2 * m_g self <> 0.
Proof.
  intros Heps Hg Hu Hbig. split.
  - now apply hg_sqr_term_denominator.
  - pose proof (Rabs_ge_positive Heps Hbig). lra.
Qed.

Lemma scalar_variant_general_branch :
  @Epsilon R scalar_variant <= Rabs (m_g hg_fwd).
Proof.
  cbn [Epsilon scalar_variant hg_fwd HGPhaseFunction_init m_g].
  rewrite Rabs_right; lra.
Qed.

Lemma hg_sample_denominators_nonzero_witness :
  0 < 1 - 1 / 2 + 2 * (1 / 2) * (1 / 2) /\ 2 * (1 / 2) <> 0.
Proof.
  refine (@hg_sample_denominators_nonzero scalar_variant hg_fwd sample2_mid
            _ _ _ scalar_variant_general_branch).
  - cbn [Epsilon scalar_variant]. lra.
  - cbn [hg_fwd HGPhaseFunction_init m_g]. lra.
  - cbn [sample2_mid x]. lra.
Defined.

Lemma hg_cos_theta_bounds
      (VA : Variant R) (self : HGPhaseFunction (Float := R))
      (sample2 : Point2f R) :
  0 < Epsilon ->
  -1 < m_g self < 1 ->
  0 <= x sample2 <= 1 ->
  -1 <= HGPhaseFunction_cos_theta self sample2 <= 1.
Proof.
  intros Heps Hg Hu.
  destruct (Rlt_dec (Rabs (m_g self)) Epsilon) as [Hsmall | Hbig].
  - rewrite hg_cos_theta_isotropic_branch by exact Hsmall. lra.
  - apply Rnot_lt_le in Hbig.
    rewrite hg_cos_theta_general_branch by exact Hbig.
    set (g := m_g self) in *. set (u := x sample2) in *.
    pose proof (Rabs_ge_positive Heps Hbig) as Hg0.
    pose proof (hg_sqr_term_denominator Hg Hu) as HD.
    assert (HD0 : 1 - g + 2 * g * u <> 0) by lra.
    pose proof (hg_cos_plus_one Hg0 HD0) as Hplus.
    pose proof (hg_one_minus_cos Hg0 HD0) as Hminus.
    assert (HDD : 0 < (1 - g + 2 * g * u) * (1 - g + 2 * g * u))
      by (apply Rmult_lt_0_compat; exact HD).
    assert (Hgu : 0 < 1 - g + g * u).
    { destruct (Rle_dec 0 g).
      - assert (0 <= g * u) by (apply Rmult_le_pos; lra). lra.
      - assert (0 <= (- g) * (1 - u)) by (apply Rmult_le_pos; lra). nra. }
    assert (Hgu' : 0 < 1 + g * u).
    { destruct (Rle_dec 0 g).
      - assert (0 <= g * u) by (apply Rmult_le_pos; lra). lra.
      - assert (0 <= (- g) * u) by (apply Rmult_le_pos; lra).
        assert ((- g) * u <= (- g) * 1) by (apply Rmult_le_compat_l; lra).
        lra. }
    assert (Hnum1 : 0 <= 2 * ((1 + g) * (1 + g)) * u * (1 - g + g * u)).
    { repeat apply Rmult_le_pos; lra. }
    assert (Hnum2 : 0 <= 2 * ((1 - g) * (1 - g)) * (1 - u) * (1 + g * u)).
    { repeat apply Rmult_le_pos; lra. }
    assert (H1 : 0 <= 2 * ((1 + g) * (1 + g)) * u * (1 - g + g * u) /
                      ((1 - g + 2 * g * u) * (1 - g + 2 * g * u))).
    { apply Rmult_le_pos; [exact Hnum1 |]. left. now apply Rinv_0_lt_compat. }
    assert (H2 : 0 <= 2 * ((1 - g) * (1 - g)) * (1 - u) * (1 + g * u) /
                      ((1 - g + 2 * g * u) * (1 - g + 2 * g * u))).
    { apply Rmult_le_pos; [exact Hnum2 |]. left. now apply Rinv_0_lt_compat. }
    rewrite <- Hplus in H1. rewrite <- Hminus in H2. lra.
Qed.

(** X6. The cosine drawn is a cosine: it lies in [-1, 1] for every first
    coordinate in [0, 1], on both branches. *)
Theorem hg_sample_cos_theta_range
        (VA : Variant R) (self : HGPhaseFunction (Float := R))
        (sample2 : Point2f R) :
  0 < Epsilon ->
  -1 < m_g self < 1 ->
  0 <= x sample2 <= 1 ->
  -1 <= HGPhaseFunction_cos_theta self sample2 <= 1.
Proof.
  intros Heps Hg Hu. now apply hg_cos_theta_bounds.
Qed.

Lemma hg_sample_cos_theta_range_witness :
  -1 <= HGPhaseFunction_cos_theta (VA := scalar_variant) hg_fwd sample2_mid <= 1.
Proof.
  apply (@hg_sample_cos_theta_range scalar_variant hg_fwd sample2_mid).
  - cbn [Epsilon scalar_variant]. lra.
  - cbn [hg_fwd HGPhaseFunction_init m_g]. lra.
  - cbn [sample2_mid x]. lra.
Defined.

(** X7. The ends of the unit interval: on the general branch the first
    coordinate 0 gives the cosine -1 and the first coordinate 1 gives the
    cosine 1, while the isotropic branch runs the other way, from 1 down to
    -1. *)
Theorem hg_sample_cos_theta_endpoints
        (VA : Variant R) (self : HGPhaseFunction (Float := R)) (v : R) :
  0 < Epsilon ->
  -1 < m_g self < 1 ->
  (Epsilon <= Rabs (m_g self) ->
   HGPhaseFunction_cos_theta self {| x := 0; y := v |} = -1 /\
   HGPhaseFunction_cos_theta self {| x := 1; y := v |} = 1) /\
  (Rabs (m_g self) < Epsilon ->
   HGPhaseFunction_cos_theta self {| x := 0; y := v |} = 1 /\
   HGPhaseFunction_cos_theta self {| x := 1; y := v |} = -1).
Proof.
  intros Heps Hg. split.
  - intros Hbig. pose proof (Rabs_ge_positive Heps Hbig) as Hg0.
    rewrite !hg_cos_theta_general_branch by exact Hbig. cbn [x].
    split; field; repeat split; lra.
  - intros Hsmall.
    rewrite !hg_cos_theta_isotropic_branch by exact Hsmall. cbn [x].
    split; ring.
Qed.

Lemma hg_sample_cos_theta_endpoints_witness :
  HGPhaseFunction_cos_theta (VA := scalar_variant) hg_fwd
                            {| x := 0; y := 1 / 4 |} = -1 /\
  HGPhaseFunction_cos_theta (VA := scalar_variant) hg_fwd
                            {| x := 1; y := 1 / 4 |} = 1.
Proof.
  refine (proj1 (@hg_sample_cos_theta_endpoints scalar_variant hg_fwd (1 / 4)
                   _ _) scalar_variant_general_branch).
  - cbn [Epsilon scalar_variant]. lra.
  - cbn [hg_fwd HGPhaseFunction_init m_g]. lra.
Defined.

(** ** The density [sample] returns, and the law it draws from *)

Lemma hg_sampled_base (g u : R) :
  g <> 0 -> 1 - g + 2 * g * u <> 0 ->
  1 + g * g - 2 * g *
  ((1 + g * g - (1 - g * g) / (1 - g + 2 * g * u) *
                ((1 - g * g) / (1 - g + 2 * g * u))) / (2 * g)) =
  (1 - g * g) / (1 - g + 2 * g * u) * ((1 - g * g) / (1 - g + 2 * g * u)).
Proof. intros Hg HD. field. split; assumption. Qed.

Lemma hg_sqr_term_positive (g u : R) :
  -1 < g < 1 -> 0 <= u <= 1 -> 0 < (1 - g * g) / (1 - g + 2 * g * u).
Proof.
  intros Hg Hu. apply Rdiv_lt_0_compat.
  - nra.
  - now apply hg_sqr_term_denominator.
Qed.

(** X9. On the general branch the density returned with the direction is
    [(1 / 4 pi) (1 - g + 2 g u)^3 / (1 - g^2)^2], [u] the first coordinate
    of the two-dimensional sample. *)
Theorem hg_sample_density_closed_form
        (VA : Variant R) (self : HGPhaseFunction (Float := R))
        (ctx : PhaseFunctionContext) (mi : MediumInteraction3f R)
        (sample1 : R) (sample2 : Point2f R) (active : Mask) :
  0 < Epsilon ->
  -1 < m_g self < 1 ->
  0 <= x sample2 <= 1 ->
  Epsilon <= Rabs (m_g self) ->
  snd (HGPhaseFunction_sample self ctx mi sample1 sample2 active) =
  1 / (4 * PI) * (1 - m_g self + 2 * m_g self * x sample2) ^ 3 /
  (1 - m_g self * m_g self) ^ 2.
Proof.
  intros Heps Hg Hu Hbig.
  rewrite hg_sample_unfold. cbn [snd].
  rewrite hg_eval_hg_unfold, hg_cos_theta_general_branch by exact Hbig.
  set (g := m_g self) in *. set (u := x sample2) in *.
  pose proof (Rabs_ge_positive Heps Hbig) as Hg0.
  pose proof (hg_sqr_term_denominator Hg Hu) as HD.
  pose proof (hg_sqr_term_positive Hg Hu) as Hs.
  assert (HD0 : 1 - g + 2 * g * u <> 0) by lra.
  replace (1 + g * g + 2 * g *
           - ((1 + g * g - (1 - g * g) / (1 - g + 2 * g * u) *
                           ((1 - g * g) / (1 - g + 2 * g * u))) / (2 * g)))
    with ((1 - g * g) / (1 - g + 2 * g * u) * ((1 - g * g) / (1 - g + 2 * g * u)))
    by (field; split; assumption).
  rewrite sqrt_square by lra.
  pose proof PI_RGT_0.
  assert (1 - g * g <> 0) by nra.
  field. repeat split; lra.
Qed.

Lemma hg_sample_density_closed_form_witness :
  snd (HGPhaseFunction_sample (VA := scalar_variant) hg_fwd ctx_unrestricted
                              mi_z (1 / 3) sample2_mid true) =
  1 / (4 * PI) * (1 - 1 / 2 + 2 * (1 / 2) * (1 / 2)) ^ 3 /
  (1 - 1 / 2 * (1 / 2)) ^ 2.
Proof.
  refine (@hg_sample_density_closed_form scalar_variant hg_fwd ctx_unrestricted
            mi_z (1 / 3) sample2_mid true _ _ _ scalar_variant_general_branch).
  - cbn [Epsilon scalar_variant]. lra.
  - cbn [hg_fwd HGPhaseFunction_init m_g]. lra.
  - cbn [sample2_mid x]. lra.
Defined.

(** X10. [sample] inverts the cumulative distribution: on the general branch the
    cosine drawn from [u] has cumulative probability [u]. *)
Theorem hg_sample_inverts_cdf
        (VA : Variant R) (self : HGPhaseFunction (Float := R))
        (sample2 : Point2f R) :
  0 < Epsilon ->
  -1 < m_g self < 1 ->
  0 <= x sample2 <= 1 ->
  Epsilon <= Rabs (m_g self) ->
  hg_cdf (m_g self) (HGPhaseFunction_cos_theta self sample2) = x sample2.
Proof.
  intros Heps Hg Hu Hbig.
  rewrite hg_cos_theta_general_branch by exact Hbig. unfold hg_cdf.
  set (g := m_g self) in *. set (u := x sample2) in *.
  pose proof (Rabs_ge_positive Heps Hbig) as Hg0.
  pose proof (hg_sqr_term_denominator Hg Hu) as HD.
  pose proof (hg_sqr_term_positive Hg Hu) as Hs.
  assert (HD0 : 1 - g + 2 * g * u <> 0) by lra.
  rewrite (hg_sampled_base Hg0 HD0).
  rewrite sqrt_square by lra.
  assert (1 - g * g <> 0) by nra.
  field. repeat split; lra.
Qed.

Lemma hg_sample_inverts_cdf_witness :
  hg_cdf (1 / 2)
         (HGPhaseFunction_cos_theta (VA := scalar_variant) hg_fwd sample2_mid) =
  1 / 2.
Proof.
  refine (@hg_sample_inverts_cdf scalar_variant hg_fwd sample2_mid
            _ _ _ scalar_variant_general_branch).
  - cbn [Epsilon scalar_variant]. lra.
  - cbn [hg_fwd HGPhaseFunction_init m_g]. lra.
  - cbn [sample2_mid x]. lra.
Defined.

Lemma derivable_pt_lim_eq (f : R -> R) (x l l' : R) :
  derivable_pt_lim f x l -> l = l' -> derivable_pt_lim f x l'.
Proof. intros Hd <-. exact Hd. Qed.

(** X11. The cumulative distribution is the one of the density [eval]
    computes: it is 0 at cosine -1 and 1 at cosine 1, and its derivative in
    the deflection cosine [mu] is [2 pi] times [eval_hg] at [- mu] (the
    density over the sphere integrated over the azimuth).  So the density
    integrates to one. *)
Theorem hg_cdf_is_cumulative_density (VA : Variant R) (g mu : R) :
  -1 < g < 1 ->
  g <> 0 ->
  -1 <= mu <= 1 ->
  hg_cdf g (-1) = 0 /\
  hg_cdf g 1 = 1 /\
  derivable_pt_lim (hg_cdf g) mu
    (2 * PI * HGPhaseFunction_eval_hg (HGPhaseFunction_init g) (- mu)).
Proof.
  intros Hg Hg0 Hmu.
  assert (Hends : hg_cdf g (-1) = 0 /\ hg_cdf g 1 = 1).
  { unfold hg_cdf.
    replace (1 + g * g - 2 * g * -1) with ((1 + g) * (1 + g)) by ring.
    replace (1 + g * g - 2 * g * 1) with ((1 - g) * (1 - g)) by ring.
    rewrite !sqrt_square by lra.
    split; field; repeat split; lra. }
  destruct Hends as [Hlo Hhi]. repeat split; trivial.
  set (lin := fun m : R => 1 + g * g - 2 * g * m).
  assert (Hbase : 0 < lin mu).
  { unfold lin. replace (1 + g * g - 2 * g * mu)
      with (1 + g * g + 2 * g * (- mu)) by ring.
    apply hg_base_positive; lra. }
  assert (Hlin : derivable_pt_lim lin mu (0 + (- (2 * g)) * 1)).
  { apply (derivable_pt_lim_ext
             (plus_fct (fct_cte (1 + g * g)) (mult_real_fct (- (2 * g)) id))).
    - intros z. unfold lin, plus_fct, fct_cte, mult_real_fct, id. ring.
    - apply derivable_pt_lim_plus.
      + apply derivable_pt_lim_const.
      + apply derivable_pt_lim_scal, derivable_pt_lim_id. }
  assert (Hsqrt : derivable_pt_lim (comp sqrt lin) mu
                    (/ (2 * sqrt (lin mu)) * (0 + (- (2 * g)) * 1))).
  { apply derivable_pt_lim_comp; [exact Hlin |].
    now apply derivable_pt_lim_sqrt. }
  pose proof (sqrt_lt_R0 (lin mu) Hbase) as Hr.
  assert (Hinv : derivable_pt_lim (div_fct (fct_cte 1) (comp sqrt lin)) mu
                   ((0 * comp sqrt lin mu -
                     / (2 * sqrt (lin mu)) * (0 + (- (2 * g)) * 1) * fct_cte 1 mu) /
                    Rsqr (comp sqrt lin mu))).
  { apply derivable_pt_lim_div.
    - apply derivable_pt_lim_const.
    - exact Hsqrt.
    - unfold comp. lra. }
  eapply derivable_pt_lim_eq.
  - apply (derivable_pt_lim_ext
             (mult_real_fct ((1 - g * g) / (2 * g))
                (minus_fct (div_fct (fct_cte 1) (comp sqrt lin))
                           (fct_cte (1 / (1 + g)))))).
    + intros z. unfold hg_cdf, mult_real_fct, minus_fct, div_fct, fct_cte,
        comp, lin. reflexivity.
    + apply derivable_pt_lim_scal, derivable_pt_lim_minus.
      * exact Hinv.
      * apply derivable_pt_lim_const.
  - rewrite hg_eval_hg_unfold. cbn [HGPhaseFunction_init m_g].
    replace (1 + g * g + 2 * g * - mu) with (lin mu) by (unfold lin; ring).
    unfold comp, fct_cte, Rsqr.
    assert (Hsq : lin mu = sqrt (lin mu) * sqrt (lin mu))
      by (symmetry; apply sqrt_sqrt; lra).
    remember (sqrt (lin mu)) as r eqn:Er.
    rewrite Hsq. clear Hsqrt Hinv Hlin Hbase Hsq Er. clearbody lin.
    pose proof PI_RGT_0.
    field. repeat split; lra.
Qed.

Lemma hg_cdf_is_cumulative_density_witness :
  hg_cdf (1 / 2) (-1) = 0 /\ hg_cdf (1 / 2) 1 = 1.
Proof.
  assert (H : -1 < 1 / 2 < 1) by lra.
  assert (H0 : 1 / 2 <> 0) by lra.
  assert (Hmu : -1 <= 0 <= 1) by lra.
  destruct (@hg_cdf_is_cumulative_density scalar_variant (1 / 2) 0 H H0 Hmu)
    as (Hlo & Hhi & _).
  split; assumption.
Defined.

(** ** The direction [sample] returns *)

Lemma to_world_preserves_norm (mi : MediumInteraction3f R) (v : Vector3f R) :
  orthonormal (sh_frame mi) ->
  dr_dot (to_world mi v) (to_world mi v) = dr_dot v v.
Proof.
  intros (Hss & Htt & Hnn & Hst & Hsn & Htn).
  unfold dr_dot, to_world in *. cbn in *.
  set (f := sh_frame mi) in *.
  transitivity
    (vx v * vx v * (vx (s f) * vx (s f) + vy (s f) * vy (s f) + vz (s f) * vz (s f))
     + vy v * vy v * (vx (t f) * vx (t f) + vy (t f) * vy (t f) + vz (t f) * vz (t f))
     + vz v * vz v * (vx (n f) * vx (n f) + vy (n f) * vy (n f) + vz (n f) * vz (n f))
     + 2 * vx v * vy v * (vx (s f) * vx (t f) + vy (s f) * vy (t f) + vz (s f) * vz (t f))
     + 2 * vx v * vz v * (vx (s f) * vx (n f) + vy (s f) * vy (n f) + vz (s f) * vz (n f))
     + 2 * vy v * vz v * (vx (t f) * vx (n f) + vy (t f) * vy (n f) + vz (t f) * vz (n f))).
  - ring.
  - rewrite Hss, Htt, Hnn, Hst, Hsn, Htn. ring.
Qed.

Lemma safe_sqrt_sine (c : R) :
  -1 <= c <= 1 ->
  sqrt (Rmax (1 - c * c) 0) * sqrt (Rmax (1 - c * c) 0) = 1 - c * c.
Proof.
  intros Hc. assert (0 <= 1 - c * c) by nra.
  rewrite Rmax_left by assumption. now apply sqrt_sqrt.
Qed.

(** X12. In an orthonormal frame the direction returned by [sample] has unit
    length, on both branches, for every two-dimensional sample whose first
    coordinate is in [0, 1]. *)
Theorem hg_sample_unit_direction
        (VA : Variant R) (self : HGPhaseFunction (Float := R))
        (ctx : PhaseFunctionContext) (mi : MediumInteraction3f R)
        (sample1 : R) (sample2 : Point2f R) (active : Mask) :
  0 < Epsilon ->
  -1 < m_g self < 1 ->
  0 <= x sample2 <= 1 ->
  orthonormal (sh_frame mi) ->
  let wo := fst (HGPhaseFunction_sample self ctx mi sample1 sample2 active) in
  dr_dot wo wo = 1.
Proof.
  intros Heps Hg Hu Hframe wo. unfold wo.
  rewrite hg_sample_unfold. cbn [fst].
  rewrite to_world_preserves_norm by exact Hframe.
  pose proof (@hg_cos_theta_bounds VA self sample2 Heps Hg Hu) as Hc.
  set (c := HGPhaseFunction_cos_theta self sample2) in *.
  pose proof (safe_sqrt_sine Hc) as Hsin.
  pose proof (sin2_cos2 (2 * PI * y sample2)) as Htrig. unfold Rsqr in Htrig.
  unfold dr_dot. cbn [vx vy vz].
  set (st := sqrt (Rmax (1 - c * c) 0)) in *.
  set (sp := sin (2 * PI * y sample2)) in *.
  set (cp := cos (2 * PI * y sample2)) in *.
  cbn [fadd fmul fneg R_DrFloat].
  replace (st * cp * (st * cp) + st * sp * (st * sp) + - c * - c)
    with (st * st * (sp * sp + cp * cp) + c * c) by ring.
  rewrite Htrig, Hsin. ring.
Qed.

Lemma orthonormal_mi_z : orthonormal (sh_frame mi_z).
Proof. unfold orthonormal, dr_dot. cbn. repeat split; ring. Qed.

Lemma hg_sample_unit_direction_witness :
  dr_dot
    (fst (HGPhaseFunction_sample (VA := scalar_variant) hg_fwd ctx_unrestricted
                                 mi_z (1 / 3) sample2_mid true))
    (fst (HGPhaseFunction_sample (VA := scalar_variant) hg_fwd ctx_unrestricted
                                 mi_z (1 / 3) sample2_mid true)) = 1.
Proof.
  refine (@hg_sample_unit_direction scalar_variant hg_fwd ctx_unrestricted
            mi_z (1 / 3) sample2_mid true _ _ _ orthonormal_mi_z).
  - cbn [Epsilon scalar_variant]. lra.
  - cbn [hg_fwd HGPhaseFunction_init m_g]. lra.
  - cbn [sample2_mid x]. lra.
Defined.

(** * Further properties of construction *)

Lemma flit_eight_tenths : flit (8 # 10) = 8 / 10.
Proof. cbn [flit R_DrFloat]. unfold Q2R. cbn [Qnum Qden]. reflexivity. Qed.

Lemma hg_new_absent (VA : Variant R) (props : Properties R) :
  props_find "g" props = None ->
  HGPhaseFunction_new props = Return (HGPhaseFunction_init (8 / 10)).
Proof.
  intros Hfind. unfold HGPhaseFunction_new, props_get_float.
  rewrite Hfind. cbn [bind]. rewrite flit_eight_tenths.
  change (fofZ (-1)) with (-1). change (fofZ 1) with 1.
  assert (Hchk : fge (8 / 10) 1 || fle (8 / 10) (-1) = false)
    by (apply hg_range_check; lra).
  rewrite Hchk. reflexivity.
Qed.

(** X13. Without a property [g] the kernel is built with the default 0.8. *)
Theorem hg_constructor_default (VA : Variant R) (props : Properties R) :
  props_find "g" props = None ->
  HGPhaseFunction_new props = Return (HGPhaseFunction_init (8 / 10)).
Proof.
  intros Hfind. now apply hg_new_absent.
Qed.

Lemma hg_constructor_default_witness :
  HGPhaseFunction_new (VA := scalar_variant) [] =
  Return (HGPhaseFunction_init (VA := scalar_variant) (8 / 10)).
Proof.
  apply (@hg_constructor_default scalar_variant []). reflexivity.
Defined.

(** X14. Whatever property list it is given, a kernel the constructor returns
    has its parameter strictly between -1 and 1, the single flag
    [Anisotropic] and exactly one component, that flag. *)
Theorem hg_constructor_invariant
        (VA : Variant R) (props : Properties R)
        (self : HGPhaseFunction (Float := R)) :
  HGPhaseFunction_new props = Return self ->
  -1 < m_g self < 1 /\
  hg_m_flags self = Anisotropic /\
  hg_m_components self = [Anisotropic] /\
  component_count (HGPhaseFunction_Base self) = 1%Z.
Proof.
  unfold HGPhaseFunction_new. intros Hnew.
  destruct (props_get_float props "g" (flit (8 # 10))) as [v | msg];
    cbn [bind] in Hnew; [| discriminate].
  change (fofZ (-1)) with (-1) in Hnew. change (fofZ 1) with 1 in Hnew.
  destruct (fge v 1 || fle v (-1)) eqn:Hchk;
    cbn [bind Log_Error] in Hnew; [discriminate |].
  injection Hnew as <-. apply hg_range_check in Hchk.
  repeat split; try reflexivity; cbn [HGPhaseFunction_init m_g]; lra.
Qed.

Lemma hg_constructor_invariant_witness :
  -1 < 8 / 10 < 1 /\
  component_count
    (HGPhaseFunction_Base (VA := scalar_variant)
       (HGPhaseFunction_init (VA := scalar_variant) (8 / 10))) = 1%Z.
Proof.
  destruct (@hg_constructor_invariant scalar_variant []
              (HGPhaseFunction_init (VA := scalar_variant) (8 / 10))
              (@hg_new_absent scalar_variant [] eq_refl))
    as (Hrange & _ & _ & Hcount).
  split; assumption.
Defined.

Section BlendConstructionMore.
Context {Float : Type}.
Implicit Types (objs : list (string * Object Float))
         (nested : option (PhaseFunction Float) * option (PhaseFunction Float)).

(** The message of the loop when it meets a third child. *)
Lemma collect_nested_overflow_message objs :
  forall (phase_index : Z) nested,
    (0 <= phase_index <= 2)%Z ->
    (2 < phase_index + Z.of_nat (List.length (children_of objs)))%Z ->
    collect_nested objs phase_index nested =
    Throw "BlendPhase: Cannot specify more than two child phase functions".
Proof.
  induction objs as [| [name obj] rest IH]; intros phase_index nested Hlo Hhi.
  - cbn in Hhi. lia.
  - rewrite children_of_cons in *. cbn [collect_nested].
    destruct (dynamic_cast_Base obj) as [phase |].
    + cbn [List.length] in *.
      destruct (phase_index =? 2)%Z eqn:Hcmp.
      * reflexivity.
      * apply Z.eqb_neq in Hcmp. apply IH; lia.
    + now apply IH.
Qed.

(** A successful run of the loop has met at most two children and ends
    with their number as index. *)
Lemma collect_nested_returns objs (phase_index : Z) nested :
  collect_nested objs 0 (None, None) = Return (phase_index, nested) ->
  phase_index = Z.of_nat (List.length (children_of objs)) /\
  (phase_index <= 2)%Z.
Proof.
  intros Hrun.
  destruct (Z_le_gt_dec (Z.of_nat (List.length (children_of objs))) 2)
    as [Hle | Hgt].
  - destruct (collect_nested_counts objs (None, None) (Z.le_refl 0) Hle)
      as [nested' Hrun'].
    rewrite Hrun in Hrun'. injection Hrun' as -> _. cbn [Z.add]. lia.
  - rewrite collect_nested_overflow_message in Hrun by lia. discriminate.
Qed.

Lemma length_two {A : Type} (l : list A) :
  List.length l = 2%nat -> exists a b, l = [a; b].
Proof.
  destruct l as [| a [| b [| c l]]]; cbn; intros Hlen; try discriminate.
  now exists a, b.
Qed.

(** X15. Construction succeeds exactly on property lists that supply two child
    phase functions and a weight source; the object built holds the two
    children in the order of the list, whatever else the list contains. *)
Theorem blend_constructor_characterised
        (props : Properties Float) (self : BlendPhaseFunction) :
  BlendPhaseFunction_new props = Return self <->
  exists w q0 q1,
    phase_children props = [q0; q1] /\
    props_volume props "weight" = Return w /\
    self = BlendPhaseFunction_init w q0 q1.
Proof.
  split.
  - unfold BlendPhaseFunction_new. intros Hnew.
    destruct (collect_nested (props_objects props) 0 (None, None))
      as [[phase_index nested] | msg] eqn:Hrun;
      cbn [bind] in Hnew; [| discriminate].
    destruct (props_volume props "weight") as [w | msg] eqn:Hw;
      cbn [bind] in Hnew; [| discriminate].
    destruct (phase_index =? 2)%Z eqn:Hidx;
      cbn [negb] in Hnew; [| discriminate].
    apply Z.eqb_eq in Hidx.
    destruct (collect_nested_returns _ Hrun) as [Hlen _].
    destruct (@length_two _ (children_of (props_objects props)))
      as (q0 & q1 & Hch); [lia |].
    rewrite (collect_nested_two _ Hch) in Hrun.
    injection Hrun as _ <-. injection Hnew as <-.
    exists w, q0, q1. repeat split; trivial.
  - intros (w & q0 & q1 & Hch & Hw & ->).
    now apply blend_constructor_accepts.
Qed.

(** X16. Which failure is reported.  A third child is reported from inside the
    loop, before the weight is looked up, so also when the weight is
    missing; fewer than two children are reported after the weight has
    been found. *)
Theorem blend_constructor_messages (props : Properties Float) :
  ((2 < List.length (phase_children props))%nat ->
   BlendPhaseFunction_new props =
   Throw "BlendPhase: Cannot specify more than two child phase functions") /\
  ((List.length (phase_children props) < 2)%nat ->
   forall w, props_volume props "weight" = Return w ->
   BlendPhaseFunction_new props =
   Throw "BlendPhase: Two child phase functions must be specified!").
Proof.
  split.
  - intros Hmany. unfold BlendPhaseFunction_new.
    rewrite collect_nested_overflow_message; [reflexivity | lia |].
    rewrite phase_children_eq in Hmany. lia.
  - intros Hfew w Hw. unfold BlendPhaseFunction_new.
    rewrite phase_children_eq in Hfew.
    destruct (collect_nested_counts (props_objects props) (None, None)
                (Z.le_refl 0)) as [nested' Hrun]; [lia |].
    rewrite Hrun. cbn [bind]. rewrite Hw. cbn [bind Z.add].
    assert (Hne : (Z.of_nat (List.length (children_of (props_objects props)))
                   =? 2)%Z = false) by (apply Z.eqb_neq; lia).
    rewrite Hne. reflexivity.
Qed.
End BlendConstructionMore.

Lemma blend_constructor_characterised_witness :
  BlendPhaseFunction_new props_two_children = Return blend_03.
Proof.
  apply (proj2 (@blend_constructor_characterised R props_two_children blend_03)).
  exists (const_volume (3 / 10)),
         (HGPhaseFunction_Base (VA := scalar_variant) hg_iso),
         (HGPhaseFunction_Base (VA := scalar_variant) hg_fwd).
  repeat split.
Defined.

Lemma blend_constructor_messages_witness :
  BlendPhaseFunction_new props_three_children =
  Throw "BlendPhase: Cannot specify more than two child phase functions".
Proof.
  apply (proj1 (@blend_constructor_messages R props_three_children)).
  cbn. lia.
Defined.

(** * Further properties of the blend *)

(** X17. The components of a blend are those of child 0 followed by those of
    child 1, its flags are the union of the children's, and the flags of
    component [j] are found by the split [eval] and [sample] use: below the
    component count of child 0 in child 0, otherwise in child 1 at [j]
    minus that count. *)
Theorem blend_component_layout
        {Float : Type} {DF : DrFloat Float} {VA : Variant Float}
        (w : Volume Float) (p0 p1 : PhaseFunction Float) :
  let self := BlendPhaseFunction_Base (BlendPhaseFunction_init w p0 p1) in
  m_components self = m_components p0 ++ m_components p1 /\
  component_count self = (component_count p0 + component_count p1)%Z /\
  m_flags self = Z.lor (m_flags p0) (m_flags p1) /\
  forall j : nat,
    flags_at self j =
    if (Z.of_nat j <? component_count p0)%Z
    then flags_at p0 j
    else flags_at p1 (j - List.length (m_components p0)).
Proof.
  intros self.
  assert (Hcomp : m_components self = m_components p0 ++ m_components p1)
    by apply blend_components_concat.
  repeat split.
  - exact Hcomp.
  - apply blend_component_count.
  - intros j. unfold flags_at. rewrite Hcomp. unfold component_count.
    destruct (Z.of_nat j <? Z.of_nat (List.length (m_components p0)))%Z eqn:Hj.
    + apply Z.ltb_lt in Hj. apply app_nth1. lia.
    + apply Z.ltb_ge in Hj. apply app_nth2. lia.
Qed.

(** X18. At a weight field of 0 or below the unrestricted [eval] is that of
    child 0 alone, at 1 or above that of child 1 alone. *)
Theorem blend_eval_degenerate_weights
        (VA : Variant R) (self : BlendPhaseFunction (Float := R))
        (ctx : PhaseFunctionContext) (mi : MediumInteraction3f R)
        (wo : Vector3f R) (active : Mask) :
  component ctx = uint32_max ->
  let a := MI_MASKED_FUNCTION active in
  (eval_1 (m_weight self) mi a <= 0 ->
   BlendPhaseFunction_eval self ctx mi wo active =
   eval (fst (m_nested_phase self)) ctx mi wo a) /\
  (1 <= eval_1 (m_weight self) mi a ->
   BlendPhaseFunction_eval self ctx mi wo active =
   eval (snd (m_nested_phase self)) ctx mi wo a).
Proof.
  intros Hctx a. split; intros Hw.
  - rewrite blend_eval_weighted_sum by exact Hctx.
    unfold BlendPhaseFunction_eval_weight. fold a.
    rewrite dr_clamp_unit_below by exact Hw. ring.
  - rewrite blend_eval_weighted_sum by exact Hctx.
    unfold BlendPhaseFunction_eval_weight. fold a.
    rewrite dr_clamp_unit_above by exact Hw. ring.
Qed.

Lemma blend_eval_degenerate_weights_witness :
  BlendPhaseFunction_eval (VA := scalar_variant) blend_0 ctx_unrestricted
                          mi_z wo_forward true =
  HGPhaseFunction_eval (VA := scalar_variant) hg_iso ctx_unrestricted mi_z
                       wo_forward true.
Proof.
  refine (proj1 (@blend_eval_degenerate_weights scalar_variant blend_0
                   ctx_unrestricted mi_z wo_forward true eq_refl) _).
  cbn [blend_0 BlendPhaseFunction_init m_weight const_volume eval_1]. lra.
Defined.

(** X19. The unrestricted [eval] of a blend lies between the values of its two
    children, whatever the weight field returns. *)
Theorem blend_eval_between_children
        (VA : Variant R) (self : BlendPhaseFunction (Float := R))
        (ctx : PhaseFunctionContext) (mi : MediumInteraction3f R)
        (wo : Vector3f R) (active : Mask) :
  component ctx = uint32_max ->
  let a := MI_MASKED_FUNCTION active in
  let c0 := eval (fst (m_nested_phase self)) ctx mi wo a in
  let c1 := eval (snd (m_nested_phase self)) ctx mi wo a in
  Rmin c0 c1 <= BlendPhaseFunction_eval self ctx mi wo active <= Rmax c0 c1.
Proof.
  intros Hctx a c0 c1.
  rewrite blend_eval_weighted_sum by exact Hctx. fold a. fold c0. fold c1.
  assert (Hw : 0 <= BlendPhaseFunction_eval_weight self mi a <= 1)
    by apply dr_clamp_unit_range.
  set (w := BlendPhaseFunction_eval_weight self mi a) in *.
  clearbody w c0 c1.
  unfold Rmin, Rmax. destruct (Rle_dec c0 c1) as [Hle | Hgt].
  - assert (0 <= w * (c1 - c0)) by (apply Rmult_le_pos; lra).
    assert (0 <= (1 - w) * (c1 - c0)) by (apply Rmult_le_pos; lra).
    lra.
  - assert (0 <= w * (c0 - c1)) by (apply Rmult_le_pos; lra).
    assert (0 <= (1 - w) * (c0 - c1)) by (apply Rmult_le_pos; lra).
    lra.
Qed.

Lemma blend_eval_between_children_witness :
  Rmin (HGPhaseFunction_eval (VA := scalar_variant) hg_iso ctx_unrestricted
                             mi_z wo_forward true)
       (HGPhaseFunction_eval (VA := scalar_variant) hg_fwd ctx_unrestricted
                             mi_z wo_forward true) <=
  BlendPhaseFunction_eval (VA := scalar_variant) blend_03 ctx_unrestricted
                          mi_z wo_forward true.
Proof.
  exact (proj1 (@blend_eval_between_children scalar_variant blend_03
                  ctx_unrestricted mi_z wo_forward true eq_refl)).
Defined.

(** X20. Degenerate weights in [sample]: at a weight field of 1 or above every
    first sample below 1 goes to child 1, which receives it unchanged; at a
    weight field of 0 or below every positive first sample goes to child 0,
    which receives it unchanged. *)
Theorem blend_sample_degenerate_weights
        (VA : Variant R) (self : BlendPhaseFunction (Float := R))
        (ctx : PhaseFunctionContext) (mi : MediumInteraction3f R)
        (u1 : R) (sample2 : Point2f R) (active : Mask) :
  component ctx = uint32_max ->
  MI_MASKED_FUNCTION active = true ->
  (1 <= eval_1 (m_weight self) mi true -> u1 < 1 ->
   BlendPhaseFunction_sample self ctx mi u1 sample2 active =
   sample (snd (m_nested_phase self)) ctx mi u1 sample2 true) /\
  (eval_1 (m_weight self) mi true <= 0 -> 0 < u1 ->
   BlendPhaseFunction_sample self ctx mi u1 sample2 active =
   sample (fst (m_nested_phase self)) ctx mi u1 sample2 true).
Proof.
  intros Hctx Hactive. split; intros Hw Hu.
  - rewrite (blend_sample_weight_one self ctx mi active Hctx Hactive sample2 Hw Hu).
    replace (u1 / 1) with u1 by field. reflexivity.
  - rewrite (blend_sample_weight_zero_positive self ctx mi active Hctx Hactive
               sample2 Hw Hu).
    replace ((u1 - 0) / (1 - 0)) with u1 by field. reflexivity.
Qed.

Lemma blend_sample_degenerate_weights_witness :
  BlendPhaseFunction_sample (VA := scalar_variant) blend_0 ctx_unrestricted
                            mi_z (1 / 2) sample2_mid true =
  HGPhaseFunction_sample (VA := scalar_variant) hg_iso ctx_unrestricted mi_z
                         (1 / 2) sample2_mid true.
Proof.
  refine (proj2 (@blend_sample_degenerate_weights scalar_variant blend_0
                   ctx_unrestricted mi_z (1 / 2) sample2_mid true
                   eq_refl eq_refl) _ _).
  - cbn [blend_0 BlendPhaseFunction_init m_weight const_volume eval_1]. lra.
  - lra.
Defined.

(** X21. What the children are handed as one-dimensional sample.  For a first
    sample in [0, 1): on the branch of child 0 the renormalised value lies
    strictly between 0 and 1; on the branch of child 1, under a positive
    weight, it lies between 0 and 1 and reaches 1 exactly when the first
    sample equals the weight. *)
Theorem blend_renormalised_sample_range
        (VA : Variant R) (self : BlendPhaseFunction (Float := R))
        (mi : MediumInteraction3f R) (u1 : R) :
  0 <= u1 < 1 ->
  let w := BlendPhaseFunction_eval_weight self mi true in
  (u1 > w -> 0 < (u1 - w) / (1 - w) < 1) /\
  (u1 <= w -> 0 < w ->
   0 <= u1 / w <= 1 /\ (u1 / w = 1 <-> u1 = w)).
Proof.
  intros Hu w.
  assert (Hw : 0 <= w <= 1) by apply dr_clamp_unit_range.
  clearbody w. split.
  - intros Hgt. assert (Hpos : 0 < 1 - w) by lra. split.
    + apply Rdiv_lt_0_compat; lra.
    + apply (Rmult_lt_reg_r (1 - w)); [exact Hpos |].
      unfold Rdiv. rewrite Rmult_assoc, Rinv_l by lra. lra.
  - intros Hle Hwpos.
    assert (Hmul : u1 / w * w = u1) by (field; lra).
    repeat split.
    + apply Rmult_le_pos; [lra |]. left. now apply Rinv_0_lt_compat.
    + apply (Rmult_le_reg_r w); [exact Hwpos |]. lra.
    + intros Hone. rewrite Hone in Hmul. lra.
    + intros ->. field. lra.
Qed.

Lemma blend_renormalised_sample_range_witness :
  0 < (1 / 2 - BlendPhaseFunction_eval_weight blend_03 mi_z true) /
      (1 - BlendPhaseFunction_eval_weight blend_03 mi_z true) < 1.
Proof.
  assert (Hu : 0 <= 1 / 2 < 1) by lra.
  refine (proj1 (@blend_renormalised_sample_range scalar_variant blend_03
                   mi_z (1 / 2) Hu) _).
  unfold BlendPhaseFunction_eval_weight.
  cbn [blend_03 BlendPhaseFunction_init m_weight const_volume eval_1].
  change (dr_clamp (3 / 10) (fofZ 0) (fofZ 1)) with (dr_clamp (3 / 10) 0 1).
  rewrite dr_clamp_unit_id; lra.
Defined.

(** X22. The closed end of that range is reached: a first sample equal to a
    positive weight goes to child 1, and child 1 is handed the value 1,
    which is outside the half-open interval the first sample came from. *)
Theorem blend_sample_at_weight_hands_one
        (VA : Variant R) (self : BlendPhaseFunction (Float := R))
        (ctx : PhaseFunctionContext) (mi : MediumInteraction3f R)
        (sample2 : Point2f R) (active : Mask) :
  component ctx = uint32_max ->
  MI_MASKED_FUNCTION active = true ->
  let w := BlendPhaseFunction_eval_weight self mi true in
  0 < w ->
  BlendPhaseFunction_sample self ctx mi w sample2 active =
  sample (snd (m_nested_phase self)) ctx mi 1 sample2 true.
Proof.
  intros Hctx Hactive w Hw.
  rewrite blend_sample_second_child by (trivial; unfold w; lra).
  fold w. replace (w / w) with 1 by (field; lra). reflexivity.
Qed.

Lemma blend_sample_at_weight_hands_one_witness :
  BlendPhaseFunction_sample (VA := scalar_variant) blend_03 ctx_unrestricted
    mi_z (BlendPhaseFunction_eval_weight blend_03 mi_z true) sample2_mid true =
  HGPhaseFunction_sample (VA := scalar_variant) hg_fwd ctx_unrestricted mi_z
                         1 sample2_mid true.
Proof.
  refine (@blend_sample_at_weight_hands_one scalar_variant blend_03
            ctx_unrestricted mi_z sample2_mid true eq_refl eq_refl _).
  unfold BlendPhaseFunction_eval_weight.
  cbn [blend_03 BlendPhaseFunction_init m_weight const_volume eval_1].
  change (dr_clamp (3 / 10) (fofZ 0) (fofZ 1)) with (dr_clamp (3 / 10) 0 1).
  rewrite dr_clamp_unit_id; lra.
Defined.

(** * Nested blends *)

Lemma kernel_components_count (VA : Variant R) (k : Kernel) :
  List.length (m_components (kernel_phase k)) = List.length (kernel_leaves k).
Proof.
  induction k as [g | w k0 IH0 k1 IH1].
  - reflexivity.
  - cbn [kernel_phase kernel_leaves BlendPhaseFunction_Base m_components].
    rewrite blend_components_concat, !length_app, IH0, IH1. reflexivity.
Qed.

(** X23. A kernel has one component per leaf, each flagged [Anisotropic], and
    [Anisotropic] is its only flag, however deep the blends are nested. *)
Theorem kernel_components_are_leaves (VA : Variant R) (k : Kernel) :
  component_count (kernel_phase k) = Z.of_nat (List.length (kernel_leaves k)) /\
  m_components (kernel_phase k) =
  repeat Anisotropic (List.length (kernel_leaves k)) /\
  m_flags (kernel_phase k) = Anisotropic.
Proof.
  induction k as [g | w k0 (_ & IHc0 & IHf0) k1 (_ & IHc1 & IHf1)].
  - repeat split.
  - split; [| split].
    + unfold component_count. now rewrite kernel_components_count.
    + cbn [kernel_phase kernel_leaves BlendPhaseFunction_Base m_components].
      rewrite blend_components_concat, IHc0, IHc1, length_app.
      symmetry. apply repeat_app.
    + cbn [kernel_phase BlendPhaseFunction_Base m_flags
           BlendPhaseFunction_init blend_m_flags].
      rewrite IHf0, IHf1. apply Z.lor_diag.
Qed.

Lemma kernel_restricted_eval_path (VA : Variant R) (k : Kernel) :
  forall (idx : nat) (ctx : PhaseFunctionContext) (mi : MediumInteraction3f R)
         (wo : Vector3f R) (active : Mask),
    (idx < List.length (kernel_leaves k))%nat ->
    (Z.of_nat (List.length (kernel_leaves k)) <= uint32_max)%Z ->
    eval (kernel_phase k) (set_component ctx (Z.of_nat idx)) mi wo active =
    kernel_component_weight k idx mi active *
    HGPhaseFunction_eval_hg (HGPhaseFunction_init (nth idx (kernel_leaves k) 0))
                            (dr_dot wo (wi mi)).
Proof.
  induction k as [g | w k0 IH0 k1 IH1]; intros idx ctx mi wo active Hidx Hmax.
  - cbn [kernel_leaves List.length] in Hidx.
    assert (idx = 0%nat) by lia. subst idx.
    cbn [kernel_phase HGPhaseFunction_Base eval kernel_component_weight
         kernel_leaves nth].
    unfold HGPhaseFunction_eval. ring.
  - cbn [kernel_leaves] in *. rewrite length_app in *.
    set (n0 := List.length (kernel_leaves k0)) in *.
    set (n1 := List.length (kernel_leaves k1)) in *.
    cbn [kernel_phase BlendPhaseFunction_Base eval kernel_component_weight].
    fold n0.
    assert (Hk : (0 <= component (set_component ctx (Z.of_nat idx)) < uint32_max)%Z)
      by (cbn [set_component component]; unfold uint32_max in *; lia).
    assert (Hcount : component_count (kernel_phase k0) = Z.of_nat n0)
      by (unfold component_count, n0; now rewrite kernel_components_count).
    destruct (idx <? n0)%nat eqn:Hside.
    + apply Nat.ltb_lt in Hside.
      rewrite blend_eval_restricted_first;
        [| exact Hk
         | cbn [BlendPhaseFunction_init m_nested_phase fst set_component component];
           rewrite Hcount; lia].
      cbn [BlendPhaseFunction_init m_nested_phase fst].
      rewrite IH0 by (fold n0; unfold uint32_max in *; lia).
      rewrite app_nth1 by (fold n0; exact Hside).
      unfold BlendPhaseFunction_eval_weight.
      cbn [BlendPhaseFunction_init m_weight].
      change (fofZ 0) with 0. change (fofZ 1) with 1. ring.
    + apply Nat.ltb_ge in Hside.
      rewrite blend_eval_restricted_second;
        [| exact Hk
         | cbn [BlendPhaseFunction_init m_nested_phase fst set_component component];
           rewrite Hcount; lia].
      cbn [BlendPhaseFunction_init m_nested_phase fst snd set_component
           component mode type_mask].
      rewrite Hcount.
      replace (Z.of_nat idx - Z.of_nat n0)%Z with (Z.of_nat (idx - n0)) by lia.
      change {| mode := mode ctx; type_mask := type_mask ctx;
                component := Z.of_nat (idx - n0) |}
        with (set_component ctx (Z.of_nat (idx - n0))).
      rewrite IH1 by (fold n1; unfold uint32_max in *; lia).
      rewrite app_nth2 by (fold n0; lia). fold n0.
      unfold BlendPhaseFunction_eval_weight.
      cbn [BlendPhaseFunction_init m_weight].
      change (fofZ 0) with 0. change (fofZ 1) with 1. ring.
Qed.

(** X24. Restricted evaluation through nested blends: the value at component
    [idx] is the density of the leaf at that index, scaled by the product
    of the blend factors on the path from the root to that leaf. *)
Theorem kernel_restricted_eval
        (VA : Variant R) (k : Kernel) (idx : nat)
        (ctx : PhaseFunctionContext) (mi : MediumInteraction3f R)
        (wo : Vector3f R) (active : Mask) :
  (idx < List.length (kernel_leaves k))%nat ->
  (Z.of_nat (List.length (kernel_leaves k)) <= uint32_max)%Z ->
  eval (kernel_phase k) (set_component ctx (Z.of_nat idx)) mi wo active =
  kernel_component_weight k idx mi active *
  HGPhaseFunction_eval_hg (HGPhaseFunction_init (nth idx (kernel_leaves k) 0))
                          (dr_dot wo (wi mi)).
Proof.
  intros Hidx Hmax. now apply kernel_restricted_eval_path.
Qed.

Lemma kernel_restricted_eval_witness :
  eval (kernel_phase (VA := scalar_variant) kernel_nested)
       (set_component ctx_unrestricted 1) mi_z wo_forward true =
  kernel_component_weight (VA := scalar_variant) kernel_nested 1 mi_z true *
  HGPhaseFunction_eval_hg
    (HGPhaseFunction_init (VA := scalar_variant)
       (nth 1 (kernel_leaves kernel_nested) 0))
    (dr_dot wo_forward (wi mi_z)).
Proof.
  refine (@kernel_restricted_eval scalar_variant kernel_nested 1
            ctx_unrestricted mi_z wo_forward true _ _).
  - cbn. lia.
  - cbn. unfold uint32_max. lia.
Defined.

Lemma kernel_component_weight_nonneg (VA : Variant R) (k : Kernel) :
  forall (idx : nat) (mi : MediumInteraction3f R) (active : Mask),
    0 <= kernel_component_weight k idx mi active.
Proof.
  induction k as [g | w k0 IH0 k1 IH1]; intros idx mi active.
  - cbn. lra.
  - cbn [kernel_component_weight].
    pose proof (dr_clamp_unit_range
                  (eval_1 w mi (MI_MASKED_FUNCTION active))) as Hw.
    destruct (idx <? List.length (kernel_leaves k0))%nat;
      apply Rmult_le_pos; try apply IH0; try apply IH1; lra.
Qed.

Lemma kernel_component_weight_total (VA : Variant R) (k : Kernel) :
  forall (mi : MediumInteraction3f R) (active : Mask),
    fold_left (fun acc idx => acc + kernel_component_weight k idx mi active)
              (seq 0 (List.length (kernel_leaves k))) 0 = 1.
Proof.
  induction k as [g | w k0 IH0 k1 IH1]; intros mi active.
  - cbn. lra.
  - cbn [kernel_leaves]. rewrite length_app, seq_app, fold_left_app.
    rewrite fold_add_shift. cbn [Nat.add].
    set (n0 := List.length (kernel_leaves k0)).
    set (a := MI_MASKED_FUNCTION active).
    set (wt := dr_clamp (eval_1 w mi a) 0 1).
    rewrite (fold_add_ext
               (fun idx => kernel_component_weight (KBlend w k0 k1) idx mi active)
               (fun idx => (1 - wt) * kernel_component_weight k0 idx mi a)
               (seq 0 n0)).
    2:{ intros idx Hin. apply in_seq in Hin. cbn [kernel_component_weight].
        fold n0. assert (Hlt : (idx <? n0)%nat = true) by (apply Nat.ltb_lt; lia).
        rewrite Hlt. reflexivity. }
    rewrite (fold_add_seq_offset (List.length (kernel_leaves k1)) n0).
    rewrite (fold_add_ext
               (fun j => kernel_component_weight (KBlend w k0 k1) (n0 + j) mi active)
               (fun j => wt * kernel_component_weight k1 j mi a)
               (seq 0 (List.length (kernel_leaves k1)))).
    2:{ intros j Hin. cbn [kernel_component_weight]. fold n0.
        assert (Hge : (n0 + j <? n0)%nat = false) by (apply Nat.ltb_ge; lia).
        rewrite Hge. replace (n0 + j - n0)%nat with j by lia. reflexivity. }
    rewrite !fold_add_scale. unfold n0. rewrite IH0, IH1. ring.
Qed.

(** X25. The factors a kernel puts on its components are weights: none is
    negative and together they add up to one. *)
Theorem kernel_component_weights_partition
        (VA : Variant R) (k : Kernel)
        (mi : MediumInteraction3f R) (active : Mask) :
  (forall idx, 0 <= kernel_component_weight k idx mi active) /\
  fold_left (fun acc idx => acc + kernel_component_weight k idx mi active)
            (seq 0 (List.length (kernel_leaves k))) 0 = 1.
Proof.
  split.
  - intros idx. apply kernel_component_weight_nonneg.
  - apply kernel_component_weight_total.
Qed.




Lemma hg_sample_density_eval (VA : Variant R) (g : R)
      (ctx : PhaseFunctionContext) (mi : MediumInteraction3f R)
      (sample1 : R) (sample2 : Point2f R) (active : Mask) :
  frame_of_wi mi ->
  snd (HGPhaseFunction_sample (HGPhaseFunction_init g) ctx mi sample1 sample2
                              active) =
  HGPhaseFunction_eval (HGPhaseFunction_init g) ctx mi
    (fst (HGPhaseFunction_sample (HGPhaseFunction_init g) ctx mi sample1
                                 sample2 active)) active.
Proof.
  intros Hframe. rewrite hg_sample_unfold. cbn [fst snd].
  unfold HGPhaseFunction_eval.
  rewrite to_world_dot_wi by exact Hframe. reflexivity.
Qed.

Lemma set_component_twice (ctx : PhaseFunctionContext) (j k : Z) :
  set_component (set_component ctx j) k = set_component ctx k.
Proof. reflexivity. Qed.

Lemma kernel_restricted_sample_eval (VA : Variant R) (k : Kernel) :
  forall (idx : nat) (ctx : PhaseFunctionContext) (mi : MediumInteraction3f R)
         (sample1 : R) (sample2 : Point2f R) (active : Mask),
    frame_of_wi mi ->
    (idx < List.length (kernel_leaves k))%nat ->
    (Z.of_nat (List.length (kernel_leaves k)) <= uint32_max)%Z ->
    let ctxk := set_component ctx (Z.of_nat idx) in
    snd (sample (kernel_phase k) ctxk mi sample1 sample2 active) =
    eval (kernel_phase k) ctxk mi
         (fst (sample (kernel_phase k) ctxk mi sample1 sample2 active)) active.
Proof.
  induction k as [g | w k0 IH0 k1 IH1];
    intros idx ctx mi sample1 sample2 active Hframe Hidx Hmax ctxk.
  - cbn [kernel_phase HGPhaseFunction_Base sample eval].
    now apply hg_sample_density_eval.
  - cbn [kernel_leaves] in *. rewrite length_app in *.
    set (n0 := List.length (kernel_leaves k0)) in *.
    set (n1 := List.length (kernel_leaves k1)) in *.
    cbn [kernel_phase BlendPhaseFunction_Base sample eval].
    assert (Hk : (0 <= component ctxk < uint32_max)%Z)
      by (unfold ctxk; cbn [set_component component];
          unfold uint32_max in *; lia).
    assert (Hcount : component_count (kernel_phase k0) = Z.of_nat n0)
      by (unfold component_count, n0; now rewrite kernel_components_count).
    destruct (Nat.lt_ge_cases idx n0) as [Hside | Hside].
    + assert (Hlt : (component ctxk <
                     component_count
                       (fst (m_nested_phase
                               (BlendPhaseFunction_init w (kernel_phase k0)
                                                        (kernel_phase k1)))))%Z)
        by (unfold ctxk;
            cbn [BlendPhaseFunction_init m_nested_phase fst set_component
                 component]; rewrite Hcount; lia).
      rewrite (blend_sample_restricted_first _ _ mi active Hk sample1 sample2 Hlt).
      cbn [fst snd].
      rewrite (blend_eval_restricted_first _ _ mi active Hk _ Hlt).
      cbn [BlendPhaseFunction_init m_nested_phase fst].
      unfold ctxk.
      rewrite (IH0 idx ctx mi sample1 sample2 (MI_MASKED_FUNCTION active))
        by (trivial; fold n0; unfold uint32_max in *; lia).
      ring.
    + assert (Hge : (component_count
                       (fst (m_nested_phase
                               (BlendPhaseFunction_init w (kernel_phase k0)
                                                        (kernel_phase k1)))) <=
                     component ctxk)%Z)
        by (unfold ctxk;
            cbn [BlendPhaseFunction_init m_nested_phase fst set_component
                 component]; rewrite Hcount; lia).
      rewrite (blend_sample_restricted_second _ _ mi active Hk sample1 sample2 Hge).
      cbn [fst snd].
      rewrite (blend_eval_restricted_second _ _ mi active Hk _ Hge).
      unfold ctxk.
      cbn [BlendPhaseFunction_init m_nested_phase fst snd set_component
           component mode type_mask].
      rewrite Hcount.
      replace (Z.of_nat idx - Z.of_nat n0)%Z with (Z.of_nat (idx - n0)) by lia.
      change {| mode := mode ctx; type_mask := type_mask ctx;
                component := Z.of_nat (idx - n0) |}
        with (set_component ctx (Z.of_nat (idx - n0))).
      rewrite !set_component_twice.
      rewrite (IH1 (idx - n0)%nat ctx mi sample1 sample2
                   (MI_MASKED_FUNCTION active))
        by (trivial; fold n1; unfold uint32_max in *; lia).
      ring.
Qed.

(** X27. In restricted mode sampling and evaluation agree at every depth of
    nesting: when the frame of the interaction is the frame of its incoming
    direction, the density [sample] returns for a component is [eval] of
    that component at the direction returned. *)
Theorem kernel_restricted_sample_matches_eval
        (VA : Variant R) (k : Kernel) (idx : nat)
        (ctx : PhaseFunctionContext) (mi : MediumInteraction3f R)
        (sample1 : R) (sample2 : Point2f R) (active : Mask) :
  frame_of_wi mi ->
  (idx < List.length (kernel_leaves k))%nat ->
  (Z.of_nat (List.length (kernel_leaves k)) <= uint32_max)%Z ->
  let ctxk := set_component ctx (Z.of_nat idx) in
  snd (sample (kernel_phase k) ctxk mi sample1 sample2 active) =
  eval (kernel_phase k) ctxk mi
       (fst (sample (kernel_phase k) ctxk mi sample1 sample2 active)) active.
Proof.
  intros Hframe Hidx Hmax. now apply kernel_restricted_sample_eval.
Qed.

Lemma frame_of_wi_mi_z : frame_of_wi mi_z.
Proof. unfold frame_of_wi, dr_dot. cbn. repeat split; ring. Qed.

Lemma kernel_restricted_sample_matches_eval_witness :
  snd (sample (kernel_phase (VA := scalar_variant) kernel_nested)
              (set_component ctx_unrestricted 2) mi_z (1 / 4) sample2_mid true) =
  eval (kernel_phase (VA := scalar_variant) kernel_nested)
       (set_component ctx_unrestricted 2) mi_z
       (fst (sample (kernel_phase (VA := scalar_variant) kernel_nested)
                    (set_component ctx_unrestricted 2) mi_z (1 / 4)
                    sample2_mid true)) true.
Proof.
  refine (@kernel_restricted_sample_matches_eval scalar_variant kernel_nested 2
            ctx_unrestricted mi_z (1 / 4) sample2_mid true frame_of_wi_mi_z _ _).
  - cbn. lia.
  - cbn. unfold uint32_max. lia.
Defined.

(** X28. Unrestricted sampling and evaluation of a blend do not agree, and by
    how much: when the chosen child returns as density its own [eval] at
    the direction it returns, the [eval] of the blend at that direction
    differs from the density the blend returns by the weight of the other
    child times the difference of the two children there. *)
Theorem blend_unrestricted_sample_eval_gap
        (VA : Variant R) (self : BlendPhaseFunction (Float := R))
        (ctx : PhaseFunctionContext) (mi : MediumInteraction3f R)
        (u1 : R) (sample2 : Point2f R) :
  component ctx = uint32_max ->
  MI_MASKED_FUNCTION true = true ->
  let p0 := fst (m_nested_phase self) in
  let p1 := snd (m_nested_phase self) in
  let w := BlendPhaseFunction_eval_weight self mi true in
  let r := BlendPhaseFunction_sample self ctx mi u1 sample2 true in
  (u1 > w ->
   snd (sample p0 ctx mi ((u1 - w) / (1 - w)) sample2 true) =
   eval p0 ctx mi (fst (sample p0 ctx mi ((u1 - w) / (1 - w)) sample2 true)) true ->
   BlendPhaseFunction_eval self ctx mi (fst r) true - snd r =
   w * (eval p1 ctx mi (fst r) true - eval p0 ctx mi (fst r) true)) /\
  (u1 <= w ->
   snd (sample p1 ctx mi (u1 / w) sample2 true) =
   eval p1 ctx mi (fst (sample p1 ctx mi (u1 / w) sample2 true)) true ->
   BlendPhaseFunction_eval self ctx mi (fst r) true - snd r =
   (1 - w) * (eval p0 ctx mi (fst r) true - eval p1 ctx mi (fst r) true)).
Proof.
  intros Hctx Hstable p0 p1 w r.
  assert (HE : BlendPhaseFunction_eval self ctx mi (fst r) true =
               (1 - w) * eval p0 ctx mi (fst r) true +
               w * eval p1 ctx mi (fst r) true).
  { rewrite (@blend_eval_weighted_sum VA self ctx mi (fst r) true Hctx).
    rewrite Hstable. reflexivity. }
  split; intros Hu Hchild.
  - assert (Hr : r = sample p0 ctx mi ((u1 - w) / (1 - w)) sample2 true)
      by (apply blend_sample_first_child; assumption).
    clearbody r. subst r. rewrite HE, Hchild. ring.
  - assert (Hr : r = sample p1 ctx mi (u1 / w) sample2 true)
      by (apply blend_sample_second_child; assumption).
    clearbody r. subst r. rewrite HE, Hchild. ring.
Qed.

Lemma blend_unrestricted_sample_eval_gap_witness :
  let r := BlendPhaseFunction_sample (VA := scalar_variant) blend_03
             ctx_unrestricted mi_z (1 / 2) sample2_mid true in
  BlendPhaseFunction_eval (VA := scalar_variant) blend_03 ctx_unrestricted
                          mi_z (fst r) true - snd r =
  BlendPhaseFunction_eval_weight blend_03 mi_z true *
  (HGPhaseFunction_eval (VA := scalar_variant) hg_fwd ctx_unrestricted mi_z
                        (fst r) true -
   HGPhaseFunction_eval (VA := scalar_variant) hg_iso ctx_unrestricted mi_z
                        (fst r) true).
Proof.
  refine (proj1 (@blend_unrestricted_sample_eval_gap scalar_variant blend_03
                   ctx_unrestricted mi_z (1 / 2) sample2_mid eq_refl eq_refl)
                _ _).
  - unfold BlendPhaseFunction_eval_weight.
    cbn [blend_03 BlendPhaseFunction_init m_weight const_volume eval_1].
    change (dr_clamp (3 / 10) (fofZ 0) (fofZ 1)) with (dr_clamp (3 / 10) 0 1).
    rewrite dr_clamp_unit_id; lra.
  - apply (@hg_sample_density_eval scalar_variant 0 ctx_unrestricted mi_z).
    apply frame_of_wi_mi_z.
Defined.

Lemma hg_density_positive (VA : Variant R) (g c : R) :
  -1 < g < 1 -> -1 <= c <= 1 ->
  0 < HGPhaseFunction_eval_hg (HGPhaseFunction_init g) c.
Proof.
  intros Hg Hc. rewrite hg_eval_hg_unfold. cbn [HGPhaseFunction_init m_g].
  apply Rdiv_lt_0_compat.
  - now apply hg_prefactor_positive.
  - apply three_halves_positive. now apply hg_base_positive.
Qed.

Lemma kernel_eval_pos (VA : Variant R) (k : Kernel) :
  Forall (fun g => -1 < g < 1) (kernel_leaves k) ->
  forall (ctx : PhaseFunctionContext) (mi : MediumInteraction3f R)
         (wo : Vector3f R) (active : Mask),
    -1 <= dr_dot wo (wi mi) <= 1 ->
    component ctx = uint32_max ->
    0 < eval (kernel_phase k) ctx mi wo active.
Proof.
  induction k as [g | w k0 IH0 k1 IH1]; intros Hleaves ctx mi wo active Hdot Hctx.
  - cbn [kernel_leaves] in Hleaves. inversion Hleaves as [| ? ? Hg _]; subst.
    cbn [kernel_phase HGPhaseFunction_Base eval]. unfold HGPhaseFunction_eval.
    now apply hg_density_positive.
  - cbn [kernel_leaves] in Hleaves. apply Forall_app in Hleaves.
    destruct Hleaves as [Hl0 Hl1].
    cbn [kernel_phase BlendPhaseFunction_Base eval].
    rewrite blend_eval_weighted_sum by exact Hctx.
    cbn [BlendPhaseFunction_init m_nested_phase fst snd].
    pose proof (IH0 Hl0 ctx mi wo (MI_MASKED_FUNCTION active) Hdot Hctx) as Hc0.
    pose proof (IH1 Hl1 ctx mi wo (MI_MASKED_FUNCTION active) Hdot Hctx) as Hc1.
    set (c0 := eval (kernel_phase k0) ctx mi wo (MI_MASKED_FUNCTION active)) in *.
    set (c1 := eval (kernel_phase k1) ctx mi wo (MI_MASKED_FUNCTION active)) in *.
    match goal with
    | |- 0 < (1 - ?wt) * c0 + ?wt * c1 =>
        assert (Hw : 0 <= wt <= 1) by apply dr_clamp_unit_range;
        set (wv := wt) in *
    end.
    clearbody wv c0 c1.
    destruct (Rle_dec c0 c1) as [Hle | Hgt].
    + assert (0 <= wv * (c1 - c0)) by (apply Rmult_le_pos; lra). lra.
    + assert (0 <= (1 - wv) * (c0 - c1)) by (apply Rmult_le_pos; lra). lra.
Qed.

(** X29. A kernel whose leaves all have their parameter strictly between -1 and
    1 evaluates, unrestricted, to a strictly positive density at every
    direction whose cosine with [wi] is a cosine, whatever the weight
    fields return. *)
Theorem kernel_eval_positive
        (VA : Variant R) (k : Kernel)
        (ctx : PhaseFunctionContext) (mi : MediumInteraction3f R)
        (wo : Vector3f R) (active : Mask) :
  Forall (fun g => -1 < g < 1) (kernel_leaves k) ->
  -1 <= dr_dot wo (wi mi) <= 1 ->
  component ctx = uint32_max ->
  0 < eval (kernel_phase k) ctx mi wo active.
Proof.
  intros Hleaves Hdot Hctx. now apply kernel_eval_pos.
Qed.

Lemma kernel_eval_positive_witness :
  0 < eval (kernel_phase (VA := scalar_variant) kernel_nested)
           ctx_unrestricted mi_z wo_forward true.
Proof.
  refine (@kernel_eval_positive scalar_variant kernel_nested ctx_unrestricted
            mi_z wo_forward true _ _ eq_refl).
  - cbn [kernel_nested kernel_03 kernel_leaves app].
    repeat constructor; lra.
  - unfold dr_dot. cbn [wo_forward mi_z wi vx vy vz fadd fmul R_DrFloat]. lra.
Defined.

Lemma hg_cos_theta_difference (g u1 u2 : R) :
  g <> 0 -> 1 - g + 2 * g * u1 <> 0 -> 1 - g + 2 * g * u2 <> 0 ->
  (1 + g * g - (1 - g * g) / (1 - g + 2 * g * u2) *
               ((1 - g * g) / (1 - g + 2 * g * u2))) / (2 * g) -
  (1 + g * g - (1 - g * g) / (1 - g + 2 * g * u1) *
               ((1 - g * g) / (1 - g + 2 * g * u1))) / (2 * g) =
  (1 - g * g) * (1 - g * g) * (u2 - u1) *
  ((1 - g + 2 * g * u1) + (1 - g + 2 * g * u2)) /
  ((1 - g + 2 * g * u1) * (1 - g + 2 * g * u1) *
   ((1 - g + 2 * g * u2) * (1 - g + 2 * g * u2))).
Proof. intros Hg H1 H2. field. repeat split; assumption. Qed.

(** X8. The cosine drawn is strictly monotone in the first coordinate:
    increasing on the general branch, decreasing on the isotropic one. *)
Theorem hg_sample_cos_theta_monotone
        (VA : Variant R) (self : HGPhaseFunction (Float := R)) (u1 u2 v : R) :
  0 < Epsilon ->
  -1 < m_g self < 1 ->
  0 <= u1 -> u1 < u2 -> u2 <= 1 ->
  (Epsilon <= Rabs (m_g self) ->
   HGPhaseFunction_cos_theta self {| x := u1; y := v |} <
   HGPhaseFunction_cos_theta self {| x := u2; y := v |}) /\
  (Rabs (m_g self) < Epsilon ->
   HGPhaseFunction_cos_theta self {| x := u2; y := v |} <
   HGPhaseFunction_cos_theta self {| x := u1; y := v |}).
Proof.
  intros Heps Hg H1 H12 H2. split.
  - intros Hbig. rewrite !hg_cos_theta_general_branch by exact Hbig. cbn [x].
    set (g := m_g self) in *.
    pose proof (Rabs_ge_positive Heps Hbig) as Hg0.
    assert (HD1 : 0 < 1 - g + 2 * g * u1)
      by (apply hg_sqr_term_denominator; lra).
    assert (HD2 : 0 < 1 - g + 2 * g * u2)
      by (apply hg_sqr_term_denominator; lra).
    apply Rlt_0_minus.
    rewrite hg_cos_theta_difference by lra.
    apply Rdiv_lt_0_compat.
    + repeat apply Rmult_lt_0_compat; nra.
    + repeat apply Rmult_lt_0_compat; assumption.
  - intros Hsmall. rewrite !hg_cos_theta_isotropic_branch by exact Hsmall.
    cbn [x]. lra.
Qed.

Lemma hg_sample_cos_theta_monotone_witness :
  HGPhaseFunction_cos_theta (VA := scalar_variant) hg_fwd
                            {| x := 1 / 4; y := 0 |} <
  HGPhaseFunction_cos_theta (VA := scalar_variant) hg_fwd
                            {| x := 3 / 4; y := 0 |}.
Proof.
  refine (proj1 (@hg_sample_cos_theta_monotone scalar_variant hg_fwd
                   (1 / 4) (3 / 4) 0 _ _ _ _ _) scalar_variant_general_branch).
  - cbn [Epsilon scalar_variant]. lra.
  - cbn [hg_fwd HGPhaseFunction_init m_g]. lra.
  - lra.
  - lra.
  - lra.
Defined.
